(** * mongoose-currency-convert: the conversion pipeline, embedded and verified

    The development follows the TypeScript sources:
    - [Js]       the JavaScript values the library manipulates (documents are
                 trees of objects and arrays; numbers are IEEE 754 binary64);
    - [Cache]    [SimpleCache] of src/utils/cache.ts;
    - [Helpers]  src/utils/helpers.ts: [getPathArray], [getNestedValue],
                 [setNestedValue], [defaultRound], [isValidCurrencyCode];
    - [Plugin]   src/index.ts: the set-up checks of [currencyConversionPlugin]
                 and [applyCurrencyConversion], and the second copy of
                 index.ts kept in the repository (src/unnamed/part_000),
                 whose loop head and rollback differ;
    - [Middleware] src/index.ts: [handleUpdateMiddleware], the hook of
                 [findOneAndUpdate] and [updateOne];
    - [Scenario] a concrete host and the records of the test-suite;
    - [HelpersSpec], [FloatFacts], [PluginSpec]: the properties;
    - [AccessorSpec], [CacheSpec], [PipelineSpec], [MiddlewareSpec]: further
                 properties of the accessors, of [SimpleCache], of an
                 invocation as a whole and of the query middleware.

    The [save] hook is not embedded: it reads and assigns a Mongoose
    document, whose [toObject] and setters are not part of this code. *)

From Stdlib Require Import ZArith List String Ascii Bool Lia Floats Uint63.
From Stdlib Require Import DecimalString DecimalNat.
Import ListNotations.
Set Warnings "-inexact-float,-register-all".

Local Open Scope list_scope.
Local Open Scope string_scope.

(* ------------------------------------------------------------------------- *)
(** ** JavaScript values *)

Module Js.

(** Numbers are primitive binary64 floats.  [Number.isNaN] and the IEEE
    comparison with zero used by truthiness. *)
Definition Number_isNaN (x : float) : bool := PrimFloat.is_nan x.

Definition Number_isFinite (x : float) : bool :=
  negb (PrimFloat.is_nan x) && negb (PrimFloat.is_infinity x).

Definition is_zero (x : float) : bool := PrimFloat.eqb x 0%float.

(** An integer as a float; exact for magnitudes below 2^53. *)
Definition Z_to_float (n : Z) : float :=
  if (n <? 0)%Z then PrimFloat.opp (of_uint63 (Uint63.of_Z (- n)))
  else of_uint63 (Uint63.of_Z n).

(** Objects carry their own properties in insertion order.  A [Date] is an
    object whose class holds its time value (NaN for an invalid date).
    Arrays have indexed elements and, like any object, named properties.
    Prototype chains, accessors and the [length] property are not part of
    the model. *)
Inductive ObjectClass : Type :=
| PlainObject
| DateObject (t : float).

Inductive JsValue : Type :=
| VUndefined
| VNull
| VBool (b : bool)
| VNum (x : float)
| VStr (s : string)
| VObj (c : ObjectClass) (props : list (string * JsValue))
| VArr (elems : list JsValue) (props : list (string * JsValue)).

(** What a [throw] carries. *)
Inductive JsError : Type :=
| TypeError                 (* property access or assignment on a non-object *)
| RangeError                (* Date.prototype.toISOString on an invalid date *)
| ErrorMsg (message : string)   (* new Error(message) *)
| Raised (v : JsValue).     (* whatever a collaborator threw or rejected with *)

Inductive Outcome (A : Type) : Type :=
| Ok (a : A)
| Throws (e : JsError).
Arguments Ok {A} a.
Arguments Throws {A} e.

Inductive JsType : Type :=
| TUndefined | TObject | TBoolean | TNumber | TString.

Definition typeof (v : JsValue) : JsType :=
  match v with
  | VUndefined => TUndefined
  | VNull => TObject
  | VBool _ => TBoolean
  | VNum _ => TNumber
  | VStr _ => TString
  | VObj _ _ => TObject
  | VArr _ _ => TObject
  end.

Definition is_typeof_object (v : JsValue) : bool :=
  match typeof v with TObject => true | _ => false end.

(** ToBoolean. *)
Definition truthy (v : JsValue) : bool :=
  match v with
  | VUndefined | VNull => false
  | VBool b => b
  | VNum x => negb (is_zero x) && negb (Number_isNaN x)
  | VStr s => negb (s =? "")
  | VObj _ _ | VArr _ _ => true
  end.

(** [v == null] *)
Definition is_nullish (v : JsValue) : bool :=
  match v with VUndefined | VNull => true | _ => false end.

Definition Array_isArray (v : JsValue) : bool :=
  match v with VArr _ _ => true | _ => false end.

Definition instanceof_Date (v : JsValue) : bool :=
  match v with VObj (DateObject _) _ => true | _ => false end.

(** *** Property tables *)

Fixpoint lookup (key : string) (props : list (string * JsValue)) : JsValue :=
  match props with
  | [] => VUndefined
  | (k, v) :: rest => if k =? key then v else lookup key rest
  end.

(** Assignment keeps the position of an existing key and appends a new one. *)
Fixpoint store (key : string) (v : JsValue) (props : list (string * JsValue))
  : list (string * JsValue) :=
  match props with
  | [] => [(key, v)]
  | (k, w) :: rest =>
      if k =? key then (k, v) :: rest else (k, w) :: store key v rest
  end.

(** [arr[i]] and [arr[i] = v]; writing past the end pads with holes, which
    read as [undefined]. *)
Definition read_index (i : nat) (elems : list JsValue) : JsValue :=
  nth i elems VUndefined.

Fixpoint write_index (i : nat) (v : JsValue) (elems : list JsValue)
  : list JsValue :=
  match i, elems with
  | O, [] => [v]
  | O, _ :: t => v :: t
  | S j, [] => VUndefined :: write_index j v []
  | S j, h :: t => h :: write_index j v t
  end.

(** *** [Number(key)] on a path segment

    The segments decoded are the unsigned decimal integers, and the empty
    string, which JavaScript reads as 0.  [None] stands for NaN.  The other
    spellings [Number] accepts (sign, fraction, exponent, radix prefix,
    surrounding blanks, Infinity) are kept as names. *)
Definition digit_of (c : ascii) : option nat :=
  let n := nat_of_ascii c in
  if (48 <=? n)%nat && (n <=? 57)%nat then Some (n - 48)%nat else None.

Fixpoint decimal_from (acc : nat) (s : string) : option nat :=
  match s with
  | EmptyString => Some acc
  | String c rest =>
      match digit_of c with
      | Some d => decimal_from (10 * acc + d) rest
      | None => None
      end
  end.

Definition Number_of_key (key : string) : option nat := decimal_from 0 key.

(** [obj[key]] for a string key. Primitives have no own properties here. *)
Definition get_prop (target : JsValue) (key : string) : JsValue :=
  match target with
  | VObj _ props => lookup key props
  | VArr _ props => lookup key props
  | _ => VUndefined
  end.

(** [arr[Number(key)]], used only behind [Array.isArray]. *)
Definition get_index (target : JsValue) (i : nat) : JsValue :=
  match target with
  | VArr elems _ => read_index i elems
  | _ => VUndefined
  end.

(** [target[key] = v] in strict code: the updated target, and the TypeError
    raised when the target is a primitive, [null] or [undefined]. *)
Definition set_prop (target : JsValue) (key : string) (v : JsValue)
  : JsValue * option JsError :=
  match target with
  | VObj c props => (VObj c (store key v props), None)
  | VArr elems props => (VArr elems (store key v props), None)
  | _ => (target, Some TypeError)
  end.

Definition set_index (target : JsValue) (i : nat) (v : JsValue) : JsValue :=
  match target with
  | VArr elems props => VArr (write_index i v elems) props
  | _ => target
  end.

(** [String.prototype.toUpperCase] on ASCII letters. *)
Definition upper_ascii (c : ascii) : ascii :=
  let n := nat_of_ascii c in
  if (97 <=? n)%nat && (n <=? 122)%nat then ascii_of_nat (n - 32) else c.

Fixpoint toUpperCase (s : string) : string :=
  match s with
  | EmptyString => EmptyString
  | String c rest => String (upper_ascii c) (toUpperCase rest)
  end.

(** [Array.prototype.includes] on strings. *)
Definition includes (x : string) (l : list string) : bool :=
  existsb (fun y => y =? x) l.

(** [Math.round]: the nearest integer, a tie going towards +infinity; NaN,
    the infinities and the zeros are returned unchanged, and the sign of a
    zero result follows the argument. *)
Definition Math_round (x : float) : float :=
  match Prim2SF x with
  | S754_finite s m e =>
      if (0 <=? e)%Z then x
      else
        let d := (2 ^ (- e))%Z in
        let sm := if s then Z.neg m else Z.pos m in
        let n := ((2 * sm + d) / (2 * d))%Z in
        if (n =? 0)%Z then (if s then (-0)%float else 0%float)
        else Z_to_float n
  | _ => x
  end.

(** Truncation towards zero of a finite float (ToIntegerOrInfinity). *)
Definition trunc (x : float) : float :=
  match Prim2SF x with
  | S754_finite s m e =>
      if (0 <=? e)%Z then x
      else
        let n := Z.quot (if s then Z.neg m else Z.pos m) (2 ^ (- e)) in
        Z_to_float n
  | _ => x
  end.

(** TimeClip: the time value of [new Date(number)]. *)
Definition TimeClip (t : float) : float :=
  if Number_isFinite t && PrimFloat.leb (PrimFloat.abs t) 8.64e15%float
  then PrimFloat.add (trunc t) 0%float
  else nan.

End Js.
Import Js.

(* ------------------------------------------------------------------------- *)
(** ** src/utils/cache.ts: [SimpleCache] *)

Module Cache.

Section SimpleCache.
Variable T : Type.

Record CacheEntry : Type := { value : T; expiresAt : float }.

(** The instance state: the [store] map and [ttl] in milliseconds. *)
Record SimpleCache : Type := {
  store : list (string * CacheEntry);
  ttl : float
}.

Definition new (ttlMinutes : float) : SimpleCache :=
  {| store := []; ttl := (ttlMinutes * 60 * 1000)%float |}.

Fixpoint Map_get (key : string) (m : list (string * CacheEntry))
  : option CacheEntry :=
  match m with
  | [] => None
  | (k, e) :: rest => if k =? key then Some e else Map_get key rest
  end.

Fixpoint Map_delete (key : string) (m : list (string * CacheEntry))
  : list (string * CacheEntry) :=
  match m with
  | [] => []
  | (k, e) :: rest =>
      if k =? key then rest else (k, e) :: Map_delete key rest
  end.

Fixpoint Map_set (key : string) (e : CacheEntry)
  (m : list (string * CacheEntry)) : list (string * CacheEntry) :=
  match m with
  | [] => [(key, e)]
  | (k, e0) :: rest =>
      if k =? key then (k, e) :: rest else (k, e0) :: Map_set key e rest
  end.

(** [now] is the reading of [Date.now()] at the call. *)
Definition isExpired (now : float) (entry : CacheEntry) : bool :=
  PrimFloat.ltb (expiresAt entry) now.

Definition get (now : float) (key : string) (c : SimpleCache)
  : option T * SimpleCache :=
  match Map_get key (store c) with
  | None => (None, c)
  | Some entry =>
      if isExpired now entry
      then (None, {| store := Map_delete key (store c); ttl := ttl c |})
      else (Some (value entry), c)
  end.

Definition set (now : float) (key : string) (v : T) (c : SimpleCache)
  : SimpleCache :=
  {| store :=
       Map_set key {| value := v; expiresAt := (now + ttl c)%float |}
         (store c);
     ttl := ttl c |}.

Definition delete (key : string) (c : SimpleCache) : SimpleCache :=
  {| store := Map_delete key (store c); ttl := ttl c |}.

Definition clear (c : SimpleCache) : SimpleCache :=
  {| store := []; ttl := ttl c |}.

(** The caches a program can hold: a new instance, then whatever the
    methods make of it. *)
Inductive reachable : SimpleCache -> Prop :=
| reach_new (ttlMinutes : float) : reachable (new ttlMinutes)
| reach_get (now : float) (key : string) (c : SimpleCache) :
    reachable c -> reachable (snd (get now key c))
| reach_set (now : float) (key : string) (v : T) (c : SimpleCache) :
    reachable c -> reachable (set now key v c)
| reach_delete (key : string) (c : SimpleCache) :
    reachable c -> reachable (delete key c)
| reach_clear (c : SimpleCache) : reachable c -> reachable (clear c).
End SimpleCache.

Arguments value {T} _.
Arguments expiresAt {T} _.
Arguments store {T} _.
Arguments ttl {T} _.
Arguments new {T} _.
Arguments get {T} _ _ _.
Arguments set {T} _ _ _ _.
Arguments delete {T} _ _.
Arguments clear {T} _.
Arguments reachable {T} _.
Arguments Map_get {T} _ _.
Arguments Map_set {T} _ _ _.
Arguments Map_delete {T} _ _.
Arguments isExpired {T} _ _.

End Cache.

(* ------------------------------------------------------------------------- *)
(** ** src/utils/helpers.ts (listed after the cache in src/utils/cache.ts) *)

Module Helpers.

Definition ISO_4217_CODES : list string :=
  [ "USD"; "EUR"; "GBP"; "JPY"; "CHF"; "CAD"; "AUD"; "NZD"; "CNY"; "SEK";
    "NOK"; "DKK"; "RUB"; "INR"; "BRL"; "ZAR"; "SGD"; "HKD"; "MXN"; "KRW";
    "TRY"; "PLN"; "CZK"; "HUF"; "ILS"; "THB"; "MYR"; "IDR"; "PHP"; "TWD";
    "SAR"; "AED"; "COP"; "CLP"; "PEN"; "ARS"; "VND"; "EGP"; "UAH"; "QAR";
    "KZT"; "BGN"; "RON"; "HRK"; "ISK"; "LTL"; "LVL"; "EEK"; "SKK"; "YER";
    "OMR"; "BHD"; "JOD"; "LBP"; "KWD"; "MAD"; "DZD"; "TND"; "LYD"; "SDG";
    "IQD"; "SYP"; "MRO"; "CVE"; "GMD"; "GNF"; "SLL"; "XOF"; "XAF"; "XPF";
    "XCD"; "XDR"; "XUA"; "XSU"; "XTS"; "XXX" ].

(** [path.split(".")].  The memo table [pathCache] only saves the split:
    callers always receive a fresh copy, so it is not observable. *)
Fixpoint split_dots (path : string) : list string :=
  match path with
  | EmptyString => [EmptyString]
  | String c rest =>
      if Ascii.eqb c "."%char then EmptyString :: split_dots rest
      else
        match split_dots rest with
        | seg :: more => String c seg :: more
        | [] => [String c EmptyString]
        end
  end.

Definition getPathArray (path : string) : list string := split_dots path.

(** The argument [path: string | string[]]. *)
Inductive Path : Type :=
| PathString (s : string)
| PathArray (keys : list string).

Definition path_keys (path : Path) : list string :=
  match path with
  | PathString s => getPathArray s
  | PathArray keys => keys
  end.

(** The reducer of [getNestedValue]. *)
Definition get_step (acc : JsValue) (key : string) : JsValue :=
  if truthy acc && is_typeof_object acc then
    match Number_of_key key with
    | Some i => if Array_isArray acc then get_index acc i else get_prop acc key
    | None => get_prop acc key
    end
  else VUndefined.

Definition getNestedValue (obj : JsValue) (path : Path) : JsValue :=
  fold_left get_step (path_keys path) obj.

(** The final assignment of [setNestedValue]. *)
Definition set_last (target : JsValue) (last : string) (value : JsValue)
  : JsValue * option JsError :=
  match Number_of_key last with
  | Some i =>
      if Array_isArray target then (set_index target i value, None)
      else set_prop target last value
  | None => set_prop target last value
  end.

(** The walk of [setNestedValue] from [target] through [parts].  The loop
    mutates the containers in place; here every step returns the container
    as the walk leaves it, together with the exception that interrupted the
    walk, if any.  The array branch keeps any truthy element as the next
    container; the other branch replaces whatever is not an object.  A
    module is strict code, so creating a property on a primitive throws. *)
Fixpoint set_walk (target : JsValue) (parts : list string) (last : string)
  (value : JsValue) : JsValue * option JsError :=
  match parts with
  | [] => set_last target last value
  | key :: rest =>
      let by_name :=
        match target with
        | VUndefined | VNull => (target, Some TypeError)
        | _ =>
            let cur := get_prop target key in
            if negb (is_typeof_object cur) || is_nullish cur then
              match set_prop target key (VObj PlainObject []) with
              | (t, Some e) => (t, Some e)
              | (_, None) =>
                  let '(child, e) :=
                    set_walk (VObj PlainObject []) rest last value in
                  (fst (set_prop target key child), e)
              end
            else
              let '(child, e) := set_walk cur rest last value in
              (fst (set_prop target key child), e)
        end in
      match Number_of_key key with
      | Some i =>
          if Array_isArray target then
            let cur := get_index target i in
            let start := if truthy cur then cur else VObj PlainObject [] in
            let '(child, e) := set_walk start rest last value in
            (set_index target i child, e)
          else by_name
      | None => by_name
      end
  end.

(** [parts.pop()]: the segments before the last, and the last. *)
Fixpoint pop (parts : list string) : option (list string * string) :=
  match parts with
  | [] => None
  | [x] => Some ([], x)
  | x :: rest =>
      match pop rest with
      | Some (init, last) => Some (x :: init, last)
      | None => None
      end
  end.

Definition setNestedValue (obj : JsValue) (path : Path) (value : JsValue)
  : JsValue * option JsError :=
  match pop (path_keys path) with
  | None => (obj, None)
  | Some (parts, last) =>
      if last =? "" then (obj, None) else set_walk obj parts last value
  end.

(** The last segment of a path, the empty string when there is none. *)
Definition last_segment (path : Path) : string :=
  List.last (path_keys path) "".

Definition defaultRound (value : float) : float :=
  (Math_round (value * 100) / 100)%float.

Definition isValidCurrencyCode (code : JsValue)
  (allowedCodes : option (list string)) : bool :=
  let list :=
    match allowedCodes with Some l => l | None => ISO_4217_CODES end in
  match code with
  | VStr s => includes (toUpperCase s) list
  | _ => false
  end.

(** Two strings are equal ignoring letter case. *)
Definition equal_ignoring_case (a b : string) : Prop :=
  toUpperCase a = toUpperCase b.

(** *** [getPathArray] with its memo table

    [pathCache] is a module-level [Map<string, string[]>].  A hit returns a
    copy of the stored array (an array is truthy, so the inner test always
    passes); a miss splits, stores and returns a copy. *)
Definition PathCache : Type := list (string * list string).

Fixpoint PathCache_get (path : string) (m : PathCache)
  : option (list string) :=
  match m with
  | [] => None
  | (k, arr) :: rest => if k =? path then Some arr else PathCache_get path rest
  end.

Fixpoint PathCache_set (path : string) (arr : list string) (m : PathCache)
  : PathCache :=
  match m with
  | [] => [(path, arr)]
  | (k, old) :: rest =>
      if k =? path then (k, arr) :: rest
      else (k, old) :: PathCache_set path arr rest
  end.

Definition getPathArray_memo (pathCache : PathCache) (path : string)
  : list string * PathCache :=
  match PathCache_get path pathCache with
  | Some cached => (cached, pathCache)
  | None =>
      let arr := split_dots path in
      (arr, PathCache_set path arr pathCache)
  end.

(** Every stored array is the split of its key. *)
Definition coherent (pathCache : PathCache) : Prop :=
  forall path arr,
    PathCache_get path pathCache = Some arr -> arr = split_dots path.

(** *** Vocabulary of the properties of the accessors *)

(** [segments.join(".")] *)
Fixpoint join_dots (segments : list string) : string :=
  match segments with
  | [] => ""
  | [seg] => seg
  | seg :: rest => seg ++ "." ++ join_dots rest
  end.

Fixpoint has_dot (s : string) : bool :=
  match s with
  | EmptyString => false
  | String c rest => Ascii.eqb c "."%char || has_dot rest
  end.

Definition first_segment (path : Path) : string := hd "" (path_keys path).

(** An object or an array. *)
Definition is_container (v : JsValue) : bool :=
  match v with VObj _ _ | VArr _ _ => true | _ => false end.

(** [Number(key)] is NaN. *)
Definition is_name (key : string) : bool :=
  match Number_of_key key with None => true | Some _ => false end.

End Helpers.
Import Helpers.

(* ------------------------------------------------------------------------- *)
(** ** src/index.ts *)

Module Plugin.

Record CurrencyFieldConfig : Type := {
  sourcePath : string;
  currencyPath : string;
  datePath : option string;
  targetPath : string;
  toCurrency : string
}.

(** [CurrencyPluginErrorContext]; [date] is the time value of the Date. *)
Record CurrencyPluginErrorContext : Type := {
  ctx_field : string;
  ctx_fromCurrency : string;
  ctx_toCurrency : string;
  ctx_date : float;
  ctx_error : JsError
}.

(** What one invocation does to the outside, in order. *)
Inductive Event : Type :=
| Warn (msg : string)                            (* console.warn *)
| ConsoleError (msg : string) (err : JsError)    (* console.error *)
| OnErrorCalled (ctx : CurrencyPluginErrorContext)
| CacheGet (key : string)
| GetRate (from to : string) (date : float)
| CacheSet (key : string) (rate : float)
| TargetWritten (path : string) (value : JsValue)
| TargetErased (path : string).

Inductive Flow : Type := Continue | Break.

Definition dquote : string := String (ascii_of_nat 34) EmptyString.

Definition prefix : string := "[mongoose-currency-convert] ".

(** *** Set-up: the checks of [currencyConversionPlugin]

    An option as an untyped caller may pass it: a value of the declared
    type, or any other JavaScript value. *)
Inductive OptionValue (A : Type) : Type :=
| Typed (a : A)
| Untyped (v : JsValue).
Arguments Typed {A} a.
Arguments Untyped {A} v.

Definition fields_rejected {A : Type} (fields : OptionValue (list A)) : bool :=
  match fields with
  | Typed l => match l with [] => true | _ => false end
  | Untyped v =>
      negb (truthy v) || negb (Array_isArray v)
      || match v with VArr [] _ => true | _ => false end
  end.

Definition is_function {A : Type} (getRate : OptionValue A) : bool :=
  match getRate with Typed _ => true | Untyped _ => false end.

Definition fields_message : string :=
  prefix ++ "option " ++ dquote ++ "fields" ++ dquote
  ++ " must be a non-empty array".

Definition getRate_message : string :=
  prefix ++ "option " ++ dquote ++ "getRate" ++ dquote
  ++ " must be a function".

(** The result is the exception thrown to the caller, or the hooks that the
    call registered on the schema with [schema.pre]. *)
Definition currencyConversionPlugin {A B : Type}
  (fields : OptionValue (list A)) (getRate : OptionValue B)
  : Outcome (list string) :=
  if fields_rejected fields then Throws (ErrorMsg fields_message)
  else if negb (is_function getRate) then Throws (ErrorMsg getRate_message)
  else Ok ["save"; "findOneAndUpdate"; "updateOne"].

(** The field-mapping option is missing, not a sequence, or empty; the
    rate resolver is not invocable. *)
Definition fields_unusable {A : Type} (fields : OptionValue (list A))
  : Prop :=
  match fields with
  | Typed l => l = []
  | Untyped v => Array_isArray v = false \/ exists props, v = VArr [] props
  end.

Definition not_invocable {B : Type} (getRate : OptionValue B) : Prop :=
  match getRate with Typed _ => False | Untyped _ => True end.

(** *** [applyCurrencyConversion] *)

Section Orchestrator.

(** Everything outside the record: the cache's store, what the rate
    resolver and the error callback depend on and change, the clock. *)
Variable W : Type.

(** [CurrencyRateCache<number>]; a rejected promise is [Throws]. *)
Record CurrencyRateCache : Type := {
  cache_get : string -> W -> Outcome (option float) * W;
  cache_set : string -> float -> W -> Outcome unit * W
}.

(** The host: [schema.path] (as a truth value), [new Date()], and the
    built-ins [Date.parse], [Date.prototype.toISOString] (on a valid time
    value), the numeric reading of a string and [Array.prototype.join]. *)
Record Runtime : Type := {
  schema_path : string -> bool;
  Date_now : W -> float * W;
  Date_parse : string -> float;
  toISOString : float -> string;
  StringToNumber : string -> float;
  Array_toString : list JsValue -> string
}.

(** The options after destructuring.  [undefined] is [None]; the
    callbacks [round], [onError] and [dateTransform] return normally. *)
Record Options : Type := {
  fields : list CurrencyFieldConfig;
  getRate : string -> string -> float -> W -> Outcome (option float) * W;
  round : option (float -> float);
  allowedCurrencyCodes : option (list string);
  onError : option (CurrencyPluginErrorContext -> W -> W);
  fallbackRate : option float;
  rollbackOnError : bool;
  cache : option CurrencyRateCache;
  dateTransform : option (float -> float)
}.

Variable rt : Runtime.
Variable opts : Options.

(** The state an invocation threads: the outside world, the record being
    mutated, the local [convertedFields], and the trace. *)
Record State : Type := {
  world : W;
  doc : JsValue;
  convertedFields : list string;
  log : list Event
}.

Definition M (A : Type) : Type := State -> Outcome A * State.

Definition ret {A : Type} (a : A) : M A := fun s => (Ok a, s).

Definition bind {A B : Type} (m : M A) (k : A -> M B) : M B :=
  fun s =>
    match m s with
    | (Ok a, s') => k a s'
    | (Throws e, s') => (Throws e, s')
    end.

Definition throw {A : Type} (e : JsError) : M A := fun s => (Throws e, s).

Definition tryCatch {A : Type} (body : M A) (handler : JsError -> M A)
  : M A :=
  fun s =>
    match body s with
    | (Ok a, s') => (Ok a, s')
    | (Throws e, s') => handler e s'
    end.

Notation "x <- m ;; k" := (bind m (fun x => k))
  (at level 61, m at next level, right associativity).
Notation "m ;;; k" := (bind m (fun _ => k))
  (at level 61, right associativity).

Definition emit (ev : Event) : M unit :=
  fun s =>
    (Ok tt, {| world := world s; doc := doc s;
               convertedFields := convertedFields s;
               log := (log s ++ [ev])%list |}).

Definition readDoc : M JsValue := fun s => (Ok (doc s), s).

(** [await] of a collaborator. *)
Definition call {A : Type} (f : W -> Outcome A * W) : M A :=
  fun s =>
    let '(r, w) := f (world s) in
    (r, {| world := w; doc := doc s;
           convertedFields := convertedFields s; log := log s |}).

Definition callback (f : W -> W) : M unit :=
  call (fun w => (Ok tt, f w)).

(** [new Date()] *)
Definition newDate (now : W -> float * W) : M float :=
  call (fun w => let '(t, w') := now w in (Ok t, w')).

(** [setNestedValue(doc, path, value)] on the record of the state. *)
Definition assign (path : string) (value : JsValue) : M unit :=
  fun s =>
    let '(d, e) := setNestedValue (doc s) (PathString path) value in
    let s' := {| world := world s; doc := d;
                 convertedFields := convertedFields s; log := log s |} in
    match e with
    | None => (Ok tt, s')
    | Some err => (Throws err, s')
    end.

Definition push (path : string) : M unit :=
  fun s =>
    (Ok tt, {| world := world s; doc := doc s;
               convertedFields := (convertedFields s ++ [path])%list;
               log := log s |}).

Definition effective_round : float -> float :=
  match round opts with Some f => f | None => defaultRound end.

(** [Number(amount)] *)
Definition ToNumber (v : JsValue) : float :=
  match v with
  | VUndefined => nan
  | VNull => 0%float
  | VBool b => if b then 1%float else 0%float
  | VNum x => x
  | VStr s => StringToNumber rt s
  | VObj (DateObject t) _ => t
  | VObj PlainObject _ => nan
  | VArr elems _ => StringToNumber rt (Array_toString rt elems)
  end.

(** [!rate || Number.isNaN(rate)] *)
Definition rate_unusable (rate : option float) : bool :=
  match rate with
  | None => true
  | Some x => is_zero x || Number_isNaN x
  end.

(** The time value of [new Date(dateValue)] for the accepted types. *)
Definition Date_of (dateValue : JsValue) : float :=
  match dateValue with
  | VStr s => Date_parse rt s
  | VNum x => TimeClip x
  | VObj (DateObject t) _ => t
  | _ => nan
  end.

Definition date_usable (dateValue : JsValue) : bool :=
  truthy dateValue
  && (match typeof dateValue with
      | TString | TNumber => true
      | _ => false
      end
      || instanceof_Date dateValue).

(** Lines 78-86: the conversion date. *)
Definition resolveDate (field : CurrencyFieldConfig) : M float :=
  d <- readDoc ;;
  let dateValue :=
    match datePath field with
    | Some p =>
        if p =? "" then VUndefined else getNestedValue d (PathString p)
    | None => VUndefined
    end in
  conversionDate <-
    (if date_usable dateValue then ret (Date_of dateValue)
     else newDate (Date_now rt)) ;;
  match dateTransform opts with
  | Some f => ret (f conversionDate)
  | None => ret conversionDate
  end.

(** Line 89: [toISOString] throws on an invalid date. *)
Definition makeCacheKey (fromCurrency to : string) (conversionDate : float)
  : M string :=
  if Number_isNaN conversionDate then throw RangeError
  else
    ret (fromCurrency ++ "_" ++ to ++ "_"
         ++ substring 0 10 (toISOString rt conversionDate)).

Definition convertedValue (field : CurrencyFieldConfig) (amount : JsValue)
  (rate conversionDate : float) : JsValue :=
  VObj PlainObject
    [ ("amount", VNum (effective_round (ToNumber amount * rate)%float));
      ("currency", VStr (toCurrency field));
      ("date", VObj (DateObject conversionDate) []) ].

(** Lines 91-98: the rate from the cache, else from the resolver. *)
Definition lookupRate (field : CurrencyFieldConfig) (fromCurrency : string)
  (conversionDate : float) (cacheKey : string) : M (option float) :=
  cached <-
    match cache opts with
    | Some c => emit (CacheGet cacheKey) ;;; call (cache_get c cacheKey)
    | None => ret None
    end ;;
  match cached with
  | Some x => ret (Some x)
  | None =>
      emit (GetRate fromCurrency (toCurrency field) conversionDate) ;;;
      rate <- call (getRate opts fromCurrency (toCurrency field)
                      conversionDate) ;;
      match cache opts, rate with
      | Some c, Some x =>
          if negb (Number_isNaN x) then
            emit (CacheSet cacheKey x) ;;;
            call (cache_set c cacheKey x) ;;;
            ret rate
          else ret rate
      | _, _ => ret rate
      end
  end.

(** Lines 100-106. *)
Definition checkRate (rate : option float) : M float :=
  let fallback :=
    match fallbackRate opts with
    | Some fb => ret fb
    | None => throw (ErrorMsg "Invalid rate")
    end in
  match rate with
  | None => fallback
  | Some x => if is_zero x || Number_isNaN x then fallback else ret x
  end.

(** The body of the [try] block, lines 91-114. *)
Definition convert (field : CurrencyFieldConfig) (amount : JsValue)
  (fromCurrency : string) (conversionDate : float) (cacheKey : string)
  : M unit :=
  rate0 <- lookupRate field fromCurrency conversionDate cacheKey ;;
  rate <- checkRate rate0 ;;
  let value := convertedValue field amount rate conversionDate in
  assign (targetPath field) value ;;;
  emit (TargetWritten (targetPath field) value) ;;;
  push (targetPath field).

(** Lines 116-126: the error callback, else [console.error]. *)
Definition report (field : CurrencyFieldConfig) (fromCurrency : string)
  (conversionDate : float) (err : JsError) : M unit :=
  match onError opts with
  | Some f =>
      let ctx := {| ctx_field := sourcePath field;
                    ctx_fromCurrency := fromCurrency;
                    ctx_toCurrency := toCurrency field;
                    ctx_date := conversionDate;
                    ctx_error := err |} in
      emit (OnErrorCalled ctx) ;;; callback (f ctx)
  | None =>
      emit (ConsoleError
              (prefix ++ "Error converting " ++ sourcePath field ++ ":")
              err)
  end.

Definition erase (path : string) : M unit :=
  emit (TargetErased path) ;;; assign path VUndefined.

(** Lines 128-130: [for (const f of fields) if (f.targetPath) ...]. *)
Fixpoint rollback (fs : list CurrencyFieldConfig) : M unit :=
  match fs with
  | [] => ret tt
  | f :: rest =>
      (if targetPath f =? "" then ret tt else erase (targetPath f)) ;;;
      rollback rest
  end.

Definition onFailure (field : CurrencyFieldConfig) (fromCurrency : string)
  (conversionDate : float) (err : JsError) : M Flow :=
  report field fromCurrency conversionDate err ;;;
  if rollbackOnError opts then rollback (fields opts) ;;; ret Break
  else ret Continue.

(** Lines 78-133, once the guards have let the field through. *)
Definition convertGuarded (field : CurrencyFieldConfig) (amount : JsValue)
  (fromCurrency : string) : M Flow :=
  conversionDate <- resolveDate field ;;
  cacheKey <- makeCacheKey fromCurrency (toCurrency field) conversionDate ;;
  tryCatch
    (convert field amount fromCurrency conversionDate cacheKey ;;;
     ret Continue)
    (onFailure field fromCurrency conversionDate).

(** The currency checks shared by the two copies, lines 68-76. *)
Definition checkCodes (field : CurrencyFieldConfig) (fromCurrency : string)
  (k : M Flow) : M Flow :=
  if negb (isValidCurrencyCode (VStr fromCurrency)
             (allowedCurrencyCodes opts)) then
    emit (Warn (prefix ++ "Invalid source currency code: " ++ fromCurrency))
    ;;; ret Continue
  else if negb (isValidCurrencyCode (VStr (toCurrency field))
                  (allowedCurrencyCodes opts)) then
    emit (Warn (prefix ++ "Invalid target currency code: "
                ++ toCurrency field)) ;;;
    ret Continue
  else k.

(** One iteration of [for (const field of fields)]. *)
Definition iteration (field : CurrencyFieldConfig) : M Flow :=
  if targetPath field =? "" then
    emit (Warn (prefix
                ++ "WARNING: 'targetPath' is required in field config")) ;;;
    ret Continue
  else if negb (schema_path rt (targetPath field ++ ".amount")) then
    emit (Warn (prefix ++ "WARNING: targetPath '" ++ targetPath field
                ++ "' does not exist in schema")) ;;;
    ret Continue
  else
    d <- readDoc ;;
    let amount := getNestedValue d (PathString (sourcePath field)) in
    if is_nullish amount then ret Continue
    else
      match getNestedValue d (PathString (currencyPath field)) with
      | VStr fromCurrency =>
          if fromCurrency =? "" then
            emit (Warn (prefix
                        ++ "Missing or invalid source currency at path: "
                        ++ currencyPath field)) ;;;
            ret Continue
          else
            checkCodes field fromCurrency
              (convertGuarded field amount fromCurrency)
      | _ =>
          emit (Warn (prefix
                      ++ "Missing or invalid source currency at path: "
                      ++ currencyPath field)) ;;;
          ret Continue
      end.

Fixpoint forEachField (body : CurrencyFieldConfig -> M Flow)
  (fs : list CurrencyFieldConfig) : M unit :=
  match fs with
  | [] => ret tt
  | f :: rest =>
      flow <- body f ;;
      match flow with
      | Continue => forEachField body rest
      | Break => ret tt
      end
  end.

Definition initial (d : JsValue) (w : W) : State :=
  {| world := w; doc := d; convertedFields := []; log := [] |}.

(** [Ok tt] is the fulfilled promise, [Throws e] the rejected one; the
    state holds the record as the invocation left it. *)
Definition applyCurrencyConversion (d : JsValue) (w : W)
  : Outcome unit * State :=
  forEachField iteration (fields opts) (initial d w).

(** *** The second copy of index.ts (src/unnamed/part_000)

    It has no [targetPath] and schema guards, skips a missing amount or
    currency with one silent test, and rolls back [convertedFields]. *)

(** Lines 108-110: [for (const path of convertedFields) ...]. *)
Fixpoint rollbackConverted (paths : list string) : M unit :=
  match paths with
  | [] => ret tt
  | path :: rest => erase path ;;; rollbackConverted rest
  end.

Definition onFailure_part000 (field : CurrencyFieldConfig)
  (fromCurrency : string) (conversionDate : float) (err : JsError)
  : M Flow :=
  report field fromCurrency conversionDate err ;;;
  if rollbackOnError opts then
    (fun s => rollbackConverted (convertedFields s) s) ;;; ret Break
  else ret Continue.

Definition convertGuarded_part000 (field : CurrencyFieldConfig)
  (amount : JsValue) (fromCurrency : string) : M Flow :=
  conversionDate <- resolveDate field ;;
  cacheKey <- makeCacheKey fromCurrency (toCurrency field) conversionDate ;;
  tryCatch
    (convert field amount fromCurrency conversionDate cacheKey ;;;
     ret Continue)
    (onFailure_part000 field fromCurrency conversionDate).

Definition iteration_part000 (field : CurrencyFieldConfig) : M Flow :=
  d <- readDoc ;;
  let amount := getNestedValue d (PathString (sourcePath field)) in
  let fromCurrency := getNestedValue d (PathString (currencyPath field)) in
  if is_nullish amount then ret Continue
  else
    match fromCurrency with
    | VStr code =>
        if code =? "" then ret Continue
        else
          checkCodes field code (convertGuarded_part000 field amount code)
    | _ => ret Continue
    end.

Definition applyCurrencyConversion_part000 (d : JsValue) (w : W)
  : Outcome unit * State :=
  forEachField iteration_part000 (fields opts) (initial d w).

(** *** Vocabulary of the properties *)

(** The guards of lines 43-76 let [field] through with [amount] and
    [fromCurrency] read from the record. *)
Definition passes_guards (field : CurrencyFieldConfig) (s : State)
  (amount : JsValue) (fromCurrency : string) : Prop :=
  targetPath field <> ""
  /\ schema_path rt (targetPath field ++ ".amount") = true
  /\ getNestedValue (doc s) (PathString (sourcePath field)) = amount
  /\ is_nullish amount = false
  /\ getNestedValue (doc s) (PathString (currencyPath field))
     = VStr fromCurrency
  /\ fromCurrency <> ""
  /\ isValidCurrencyCode (VStr fromCurrency) (allowedCurrencyCodes opts)
     = true
  /\ isValidCurrencyCode (VStr (toCurrency field))
       (allowedCurrencyCodes opts) = true.

(** The field reaches the rate resolution (step 7): it passes the guards
    and its conversion date, resolved in state [s1], is a valid date. *)
Definition reaches_rate_step (field : CurrencyFieldConfig) (s : State)
  (amount : JsValue) (fromCurrency : string) (conversionDate : float)
  (s1 : State) : Prop :=
  passes_guards field s amount fromCurrency
  /\ resolveDate field s = (Ok conversionDate, s1)
  /\ Number_isNaN conversionDate = false.

Definition cacheKeyOf (fromCurrency : string) (field : CurrencyFieldConfig)
  (conversionDate : float) : string :=
  fromCurrency ++ "_" ++ toCurrency field ++ "_"
  ++ substring 0 10 (toISOString rt conversionDate).

(** The cache, if any, has no rate under [key]: the world goes from [w] to
    [w1] over the read. *)
Definition cache_missed (key : string) (w w1 : W) : Prop :=
  match cache opts with
  | None => w1 = w
  | Some c => cache_get c key w = (Ok None, w1)
  end.

(** What the rate resolution adds to the trace before the resolver
    answers, and the state once the collaborators have moved the world to
    [w] and the trace has grown by [evs]. *)
Definition lookup_events (key fromCurrency : string)
  (field : CurrencyFieldConfig) (conversionDate : float) : list Event :=
  (match cache opts with Some _ => [CacheGet key] | None => [] end
   ++ [GetRate fromCurrency (toCurrency field) conversionDate])%list.

Definition after (s : State) (w : W) (evs : list Event) : State :=
  {| world := w; doc := doc s; convertedFields := convertedFields s;
     log := (log s ++ evs)%list |}.

(** The write to the cache that follows a resolver answer [rate]: none
    when there is no cache or the answer is [undefined] or NaN; else
    [cache.set(key, rate)], which takes the world from [w] to [w']. *)
Definition cache_write_events (key : string) (rate : option float)
  : list Event :=
  match cache opts, rate with
  | Some _, Some x => if Number_isNaN x then [] else [CacheSet key x]
  | _, _ => []
  end.

Definition cache_written (key : string) (rate : option float) (w w' : W)
  : Prop :=
  match cache opts, rate with
  | Some c, Some x =>
      if Number_isNaN x then w' = w else cache_set c key x w = (Ok tt, w')
  | _, _ => w' = w
  end.

(** A computation only appends to the trace, and what it appends
    satisfies [P]. *)
Definition emits (P : Event -> Prop) {A : Type} (m : M A) : Prop :=
  forall s, exists evs,
    log (snd (m s)) = (log s ++ evs)%list /\ Forall P evs.

(** Every exception that escapes a computation satisfies [Q]. *)
Definition raises (Q : JsError -> Prop) {A : Type} (m : M A) : Prop :=
  forall s e s', m s = (Throws e, s') -> Q e.

Definition is_RangeError (e : JsError) : Prop := e = RangeError.

Definition is_erasure (ev : Event) : Prop :=
  match ev with TargetErased _ => True | _ => False end.

(** The events of the failure handler, and those of everything that
    follows the rate resolution. *)
Definition failure_event (ev : Event) : Prop :=
  match ev with
  | OnErrorCalled _ | ConsoleError _ _ | TargetErased _ => True
  | _ => False
  end.

Definition conversion_event (ev : Event) : Prop :=
  match ev with
  | TargetWritten _ _ | OnErrorCalled _ | ConsoleError _ _
  | TargetErased _ => True
  | _ => False
  end.

(** The target paths written, and those erased, in a trace. *)
Fixpoint written_paths (evs : list Event) : list string :=
  match evs with
  | [] => []
  | TargetWritten path _ :: rest => path :: written_paths rest
  | _ :: rest => written_paths rest
  end.

Fixpoint erased_paths (evs : list Event) : list string :=
  match evs with
  | [] => []
  | TargetErased path :: rest => path :: erased_paths rest
  | _ :: rest => erased_paths rest
  end.

(** Between two states the local [convertedFields] and the targets
    written and erased in the trace are the same. *)
Definition same_paths (s s' : State) : Prop :=
  convertedFields s' = convertedFields s
  /\ written_paths (log s') = written_paths (log s)
  /\ erased_paths (log s') = erased_paths (log s).

Definition neutral {A : Type} (m : M A) : Prop :=
  forall s, same_paths s (snd (m s)).

(** [convertedFields] lists the targets written so far and nothing has
    been erased. *)
Definition consistent (s : State) : Prop :=
  convertedFields s = written_paths (log s) /\ erased_paths (log s) = [].

(** The targets erased are the first of the targets written. *)
Definition erased_among_written (s : State) : Prop :=
  exists rest,
    written_paths (log s) = (erased_paths (log s) ++ rest)%list.

(** The target paths that the rollback loop of src/index.ts visits. *)
Definition rollback_targets (fs : list CurrencyFieldConfig) : list string :=
  filter (fun path => negb (path =? "")) (map targetPath fs).

(** The state after a completed conversion of [field] from state [s]. *)
Definition written (s : State) (d : JsValue) (path : string)
  (value : JsValue) : State :=
  {| world := world s; doc := d;
     convertedFields := (convertedFields s ++ [path])%list;
     log := (log s ++ [TargetWritten path value])%list |}.

Definition is_warning (ev : Event) : Prop :=
  match ev with Warn _ => True | _ => False end.

(** The properties of the record under which the configured mappings
    write: the first segments of their target paths. *)
Definition target_roots (fs : list CurrencyFieldConfig) : list string :=
  map (fun f => first_segment (PathString (targetPath f))) fs.

(** Two records that are objects of the same class and agree on every
    property outside [roots]; nothing is asked of a record that is not an
    object. *)
Definition same_outside (roots : list string) (d d' : JsValue) : Prop :=
  match d with
  | VObj c props =>
      exists props',
        d' = VObj c props'
        /\ forall key, ~ In key roots -> lookup key props' = lookup key props
  | _ => True
  end.

(** The record of the state agrees with the record [d0] outside the
    target roots, and every path of [convertedFields] starts with one. *)
Definition within_targets (d0 : JsValue) (s : State) : Prop :=
  same_outside (target_roots (fields opts)) d0 (doc s)
  /\ Forall (fun path =>
               In (first_segment (PathString path))
                 (target_roots (fields opts)))
       (convertedFields s).

Definition preserves (Inv : State -> Prop) {A : Type} (m : M A) : Prop :=
  forall s, Inv s -> Inv (snd (m s)).

(** The report of a failure, as it appears in the trace. *)
Definition reported (field : CurrencyFieldConfig) (fromCurrency : string)
  (conversionDate : float) (err : JsError) : Event :=
  match onError opts with
  | Some _ =>
      OnErrorCalled {| ctx_field := sourcePath field;
                       ctx_fromCurrency := fromCurrency;
                       ctx_toCurrency := toCurrency field;
                       ctx_date := conversionDate;
                       ctx_error := err |}
  | None =>
      ConsoleError (prefix ++ "Error converting " ++ sourcePath field ++ ":")
        err
  end.

End Orchestrator.

Arguments cache_get {W} _ _ _.
Arguments cache_set {W} _ _ _ _.
Arguments schema_path {W} _ _.
Arguments Date_now {W} _ _.
Arguments Date_parse {W} _ _.
Arguments toISOString {W} _ _.
Arguments StringToNumber {W} _ _.
Arguments Array_toString {W} _ _.
Arguments world {W} _.
Arguments doc {W} _.
Arguments convertedFields {W} _.
Arguments log {W} _.
Arguments fields {W} _.
Arguments getRate {W} _ _ _ _ _.
Arguments round {W} _.
Arguments allowedCurrencyCodes {W} _.
Arguments onError {W} _.
Arguments fallbackRate {W} _.
Arguments rollbackOnError {W} _.
Arguments cache {W} _.
Arguments dateTransform {W} _.
Arguments ret {W A} _ _.
Arguments bind {W A B} _ _ _.
Arguments throw {W A} _ _.
Arguments tryCatch {W A} _ _ _.
Arguments emit {W} _ _.
Arguments readDoc {W} _.
Arguments call {W A} _ _.
Arguments callback {W} _ _.
Arguments newDate {W} _ _.
Arguments assign {W} _ _ _.
Arguments push {W} _ _.
Arguments erase {W} _ _.
Arguments rollback {W} _ _.
Arguments rollbackConverted {W} _ _.
Arguments forEachField {W} _ _ _.
Arguments initial {W} _ _.
Arguments effective_round {W} _ _.
Arguments ToNumber {W} _ _.
Arguments rate_unusable _ : clear implicits.
Arguments Date_of {W} _ _.
Arguments resolveDate {W} _ _ _ _.
Arguments makeCacheKey {W} _ _ _ _ _.
Arguments convertedValue {W} _ _ _ _ _ _.
Arguments lookupRate {W} _ _ _ _ _ _.
Arguments checkRate {W} _ _ _.
Arguments convert {W} _ _ _ _ _ _ _ _.
Arguments report {W} _ _ _ _ _ _.
Arguments onFailure {W} _ _ _ _ _ _.
Arguments convertGuarded {W} _ _ _ _ _ _.
Arguments checkCodes {W} _ _ _ _ _.
Arguments iteration {W} _ _ _ _.
Arguments applyCurrencyConversion {W} _ _ _ _.
Arguments onFailure_part000 {W} _ _ _ _ _ _.
Arguments convertGuarded_part000 {W} _ _ _ _ _ _.
Arguments iteration_part000 {W} _ _ _ _.
Arguments applyCurrencyConversion_part000 {W} _ _ _ _.
Arguments passes_guards {W} _ _ _ _ _ _.
Arguments reaches_rate_step {W} _ _ _ _ _ _ _ _.
Arguments cacheKeyOf {W} _ _ _ _.
Arguments cache_missed {W} _ _ _ _.
Arguments written {W} _ _ _ _.
Arguments rollback_targets _ : clear implicits.
Arguments within_targets {W} _ _ _.
Arguments preserves {W} _ {A} _.
Arguments same_paths {W} _ _.
Arguments neutral {W A} _.
Arguments consistent {W} _.
Arguments erased_among_written {W} _.
Arguments emits {W} _ {A} _.
Arguments raises {W} _ {A} _.
Arguments lookup_events {W} _ _ _ _ _.
Arguments after {W} _ _ _.
Arguments cache_write_events {W} _ _ _.
Arguments cache_written {W} _ _ _ _ _.
Arguments reported {W} _ _ _ _ _.

End Plugin.
Import Plugin.

(** * The query middleware (src/index.ts, [handleUpdateMiddleware])

    [findOneAndUpdate] and [updateOne] run the conversion on the update
    before the query is sent. *)

Module Middleware.

Local Open Scope list_scope.
Local Open Scope string_scope.

(** What [this.getUpdate()] returns, by its type: [null], an update
    document, or an aggregation pipeline, which is an array of stages. *)
Inductive Update : Type :=
| NoUpdate
| UpdateQuery (props : list (string * JsValue))
| UpdatePipeline (stages : list JsValue).

Definition update_value (update : Update) : JsValue :=
  match update with
  | NoUpdate => VNull
  | UpdateQuery props => VObj PlainObject props
  | UpdatePipeline stages => VArr stages []
  end.

(** The property key of an array index. *)
Definition index_key (i : nat) : string :=
  NilZero.string_of_uint (Nat.to_uint i).

Fixpoint indexed (i : nat) (elems : list JsValue)
  : list (string * JsValue) :=
  match elems with
  | [] => []
  | v :: rest => (index_key i, v) :: indexed (S i) rest
  end.

(** The own properties that [{ ...v }] and [Object.assign(_, v)] copy from
    an object or an array; the elements of an array come under their
    indices (a hole is not told from an [undefined] element). *)
Definition spread (v : JsValue) : list (string * JsValue) :=
  match v with
  | VObj _ props => props
  | VArr elems props => indexed 0 elems ++ props
  | _ => []
  end.

(** [target[key] = v] for a property key, without the [Number(key)] of the
    accessors: on an array only the canonical spelling of an index is an
    element. *)
Definition canonical_index (key : string) : option nat :=
  match Number_of_key key with
  | Some i => if index_key i =? key then Some i else None
  | None => None
  end.

Definition put (target : JsValue) (key : string) (v : JsValue) : JsValue :=
  match target with
  | VObj c props => VObj c (store key v props)
  | VArr elems props =>
      match canonical_index key with
      | Some i => VArr (write_index i v elems) props
      | None => VArr elems (store key v props)
      end
  | _ => target
  end.

(** [Object.assign(target, source)], [source] given by its properties. *)
Definition Object_assign (target : JsValue)
  (source : list (string * JsValue)) : JsValue :=
  fold_left (fun t kv => put t (fst kv) (snd kv)) source target.

(** [typeof v === "object" && v !== null] *)
Definition is_object (v : JsValue) : bool :=
  is_typeof_object v && negb (is_nullish v).

Section Hooks.

Variable W : Type.
Variable rt : Runtime W.
Variable opts : Options W.

(** How the middleware ends: it calls [next()] with the update as it has
    left it, or its promise rejects and [next] is not called.  After a
    rejection the update is not described: the copy that the conversion
    worked on shares its nested containers with it. *)
Inductive HookResult : Type :=
| Passed (update : JsValue) (w : W) (trace : list Event)
| Rejected (e : JsError) (w : W) (trace : list Event).

(** [await applyCurrencyConversion(doc)], then the statement that puts the
    converted copy back into the update, then [next()]. *)
Definition finish (putBack : JsValue -> JsValue)
  (run : Outcome unit * State W) : HookResult :=
  match run with
  | (Ok _, s) => Passed (putBack (doc s)) (world s) (log s)
  | (Throws e, s) => Rejected e (world s) (log s)
  end.

Definition updateMiddleware
  (conversion : JsValue -> W -> Outcome unit * State W)
  (update : Update) (w : W) : HookResult :=
  match update with
  | NoUpdate => Passed (update_value update) w []
  | _ =>
      let updateAny := update_value update in
      let set := get_prop updateAny "$set" in
      if is_object set then
        finish (fun d => put updateAny "$set" d)
          (conversion (VObj PlainObject (spread set)) w)
      else
        finish (fun d => Object_assign updateAny (spread d))
          (conversion (VObj PlainObject (spread updateAny)) w)
  end.

Definition handleUpdateMiddleware : Update -> W -> HookResult :=
  updateMiddleware (applyCurrencyConversion rt opts).

(** The same middleware in the second copy of index.ts. *)
Definition handleUpdateMiddleware_part000 : Update -> W -> HookResult :=
  updateMiddleware (applyCurrencyConversion_part000 rt opts).

(** The record of a state is a plain object with distinct keys, [keys]
    among them. *)
Definition carries_keys (keys : list string) (s : State W) : Prop :=
  exists props,
    doc s = VObj PlainObject props
    /\ NoDup (map fst props)
    /\ incl keys (map fst props).

End Hooks.

Arguments Passed {W} _ _ _.
Arguments Rejected {W} _ _ _.
Arguments finish {W} _ _.
Arguments updateMiddleware {W} _ _ _.
Arguments handleUpdateMiddleware {W} _ _ _ _.
Arguments handleUpdateMiddleware_part000 {W} _ _ _ _.
Arguments carries_keys {W} _ _.

End Middleware.
Import Middleware.

(* ------------------------------------------------------------------------- *)
(** ** A concrete host, for running the pipeline on examples *)

Module Scenario.

(** The world of the examples: a clock, a [SimpleCache] of rates and the
    number of calls the rate resolver has received. *)
Record World : Type := {
  clock : float;
  rates : Cache.SimpleCache float;
  rateCalls : nat
}.

Definition world0 : World :=
  {| clock := 1759276800000%float;       (* 2025-10-01T00:00:00.000Z *)
     rates := Cache.new 60%float;
     rateCalls := 0 |}.

Definition simpleCache : CurrencyRateCache World :=
  {| cache_get := fun key w =>
       let '(r, c) := Cache.get (clock w) key (rates w) in
       (Ok r, {| clock := clock w; rates := c; rateCalls := rateCalls w |});
     cache_set := fun key v w =>
       (Ok tt, {| clock := clock w;
                  rates := Cache.set (clock w) key v (rates w);
                  rateCalls := rateCalls w |}) |}.

Definition counted (w : World) : World :=
  {| clock := clock w; rates := rates w; rateCalls := S (rateCalls w) |}.

(** Resolvers of the test-suite: a constant rate, a rejection, and the one
    of the rollback test that fails for GBP. *)
Definition constantRate (r : option float)
  : string -> string -> float -> World -> Outcome (option float) * World :=
  fun _ _ _ w => (Ok r, counted w).

Definition failingRate
  : string -> string -> float -> World -> Outcome (option float) * World :=
  fun _ _ _ w => (Throws (Raised (VStr "rate error")), counted w).

Definition failingForGBP
  : string -> string -> float -> World -> Outcome (option float) * World :=
  fun _ to _ w =>
    if to =? "GBP" then (Throws (Raised (VStr "fail GBP")), counted w)
    else (Ok (Some 2%float), counted w).

(** A numeric reading of strings that is exact on unsigned decimal integers
    and NaN on strings without digits only; enough for the examples. *)
Definition digitsToNumber (s : string) : float :=
  match s with
  | EmptyString => 0%float
  | _ =>
      match Number_of_key s with
      | Some n => Z_to_float (Z.of_nat n)
      | None => nan
      end
  end.

Definition host : Runtime World :=
  {| schema_path := fun _ => true;
     Date_now := fun w => (clock w, w);
     Date_parse := fun s =>
       if s =? "2025-10-01" then 1759276800000%float else nan;
     toISOString := fun _ => "2025-10-01T00:00:00.000Z";
     StringToNumber := digitsToNumber;
     Array_toString := fun _ => "" |}.

Definition options (fs : list CurrencyFieldConfig)
  (resolver : string -> string -> float -> World
              -> Outcome (option float) * World) : Options World :=
  {| fields := fs;
     getRate := resolver;
     round := None;
     allowedCurrencyCodes := None;
     onError := None;
     fallbackRate := None;
     rollbackOnError := false;
     cache := None;
     dateTransform := None |}.

Definition mapping (source currency target to : string)
  : CurrencyFieldConfig :=
  {| sourcePath := source; currencyPath := currency; datePath := None;
     targetPath := target; toCurrency := to |}.

Definition obj (props : list (string * JsValue)) : JsValue :=
  VObj PlainObject props.

Definition withRollback (o : Options World) : Options World :=
  {| fields := fields o; getRate := getRate o; round := round o;
     allowedCurrencyCodes := allowedCurrencyCodes o; onError := onError o;
     fallbackRate := fallbackRate o; rollbackOnError := true;
     cache := cache o; dateTransform := dateTransform o |}.

Definition withFallback (fb : float) (o : Options World) : Options World :=
  {| fields := fields o; getRate := getRate o; round := round o;
     allowedCurrencyCodes := allowedCurrencyCodes o; onError := onError o;
     fallbackRate := Some fb; rollbackOnError := rollbackOnError o;
     cache := cache o; dateTransform := dateTransform o |}.

Definition withCache (o : Options World) : Options World :=
  {| fields := fields o; getRate := getRate o; round := round o;
     allowedCurrencyCodes := allowedCurrencyCodes o; onError := onError o;
     fallbackRate := fallbackRate o; rollbackOnError := rollbackOnError o;
     cache := Some simpleCache; dateTransform := dateTransform o |}.

(** The record and the mapping of most tests: [{ price: 10, currency:
    "USD" }], converted to EUR at [result]. *)
Definition priced (price : JsValue) (more : list (string * JsValue))
  : JsValue :=
  obj ([("price", price); ("currency", VStr "USD")] ++ more)%list.

Definition toResult : CurrencyFieldConfig :=
  mapping "price" "currency" "result" "EUR".

Definition keyUsdEur : string := "USD_EUR_2025-10-01".

(** Rollback with targets that were never written: the first mapping is
    skipped (its source is absent), the second fails, the third is never
    reached; [kept] and [later] hold earlier values. *)
Definition threeMappings : list CurrencyFieldConfig :=
  [ mapping "absent" "currency" "kept" "EUR";
    toResult;
    mapping "price" "currency" "later" "GBP" ].

Definition recordWithEarlierValues : JsValue :=
  priced (VNum 10) [("kept", VNum 5); ("later", VNum 7)].

(** A target that runs through a number held in an array. *)
Definition recordWithNumberInArray : JsValue :=
  priced (VNum 10) [("a", VArr [VNum 5] [])].

Definition throughArray : CurrencyFieldConfig :=
  mapping "price" "currency" "a.0.b.c" "EUR".

(** A mapping with a date path, and a record whose date does not parse. *)
Definition dated : CurrencyFieldConfig :=
  {| sourcePath := "price"; currencyPath := "currency";
     datePath := Some "date"; targetPath := "result"; toCurrency := "EUR" |}.

Definition recordWithBadDate : JsValue :=
  priced (VNum 10) [("date", VStr "not a date")].

(** A world whose cache already holds the rate 3 for the key of the day. *)
Definition worldWithRate : World :=
  {| clock := 1759276800000%float;
     rates := Cache.set 1759276800000 keyUsdEur 3%float (Cache.new 60);
     rateCalls := 1 |}.

(** Updates of the query middleware: with a [$set] operator beside another
    operator, as a plain replacement document, and as a pipeline. *)
Definition setDocument : list (string * JsValue) :=
  [("price", VNum 10); ("currency", VStr "USD"); ("name", VStr "x")].

Definition updateWithSet : list (string * JsValue) :=
  [("$set", obj setDocument); ("$inc", obj [("n", VNum 1)])].

Definition pipeline : list JsValue :=
  [obj [("$set", priced (VNum 10) [])]].

End Scenario.
Import Scenario.

(* ------------------------------------------------------------------------- *)
(** ** Properties of the helpers *)

Module HelpersSpec.

(** *** Property tables and array slots *)

Lemma lookup_store_same (key : string) (v : JsValue)
  (props : list (string * JsValue)) :
  lookup key (store key v props) = v.
Proof.
  induction props as [| [k w] rest IH]; simpl.
  - now rewrite String.eqb_refl.
  - destruct (k =? key) eqn:E; simpl; rewrite E; auto.
Qed.

Lemma read_write_index_same (i : nat) (v : JsValue) (elems : list JsValue) :
  read_index i (write_index i v elems) = v.
Proof.
  unfold read_index. revert elems.
  induction i as [| j IH]; intros [| h t]; simpl; auto.
Qed.

(** *** One step of the reader after one step of the writer *)

Lemma get_step_set_index (target child : JsValue) (key : string) (i : nat) :
  Number_of_key key = Some i ->
  Array_isArray target = true ->
  get_step (set_index target i child) key = child.
Proof.
  intros Hk Ha. destruct target; try discriminate.
  unfold get_step. simpl. rewrite Hk. simpl.
  apply read_write_index_same.
Qed.

Lemma get_step_set_prop (target target' child : JsValue) (key : string) :
  (Number_of_key key = None \/ Array_isArray target = false) ->
  set_prop target key child = (target', None) ->
  get_step target' key = child.
Proof.
  intros Hk Hs.
  destruct target; simpl in Hs; try discriminate;
    injection Hs as <-; unfold get_step; simpl.
  - destruct (Number_of_key key); apply lookup_store_same.
  - destruct Hk as [-> | Hk]; [apply lookup_store_same | discriminate].
Qed.

Lemma set_prop_fst (target child : JsValue) (key : string) :
  is_typeof_object target = true -> is_nullish target = false ->
  set_prop target key child = (fst (set_prop target key child), None).
Proof. destruct target; simpl; intros; try discriminate; reflexivity. Qed.

Lemma set_last_get (target target' value : JsValue) (last : string) :
  set_last target last value = (target', None) ->
  get_step target' last = value.
Proof.
  unfold set_last. intros H.
  destruct (Number_of_key last) as [i |] eqn:Hk.
  - destruct (Array_isArray target) eqn:Ha.
    + injection H as <-. now apply get_step_set_index.
    + eapply get_step_set_prop; eauto.
  - eapply get_step_set_prop; eauto.
Qed.

(** The walk of the writer, when it completes, is retraced by the reader. *)
Lemma set_walk_get (parts : list string) (last : string) (value : JsValue) :
  forall target target',
    set_walk target parts last value = (target', None) ->
    fold_left get_step (parts ++ [last])%list target' = value.
Proof.
  induction parts as [| key rest IH]; intros target target' H; simpl in *.
  - now apply (set_last_get target).
  - assert (Hname :
      (Number_of_key key = None \/ Array_isArray target = false) ->
      match target with
      | VUndefined | VNull => (target, Some TypeError)
      | _ =>
          let cur := get_prop target key in
          if negb (is_typeof_object cur) || is_nullish cur then
            match set_prop target key (VObj PlainObject []) with
            | (t, Some e) => (t, Some e)
            | (_, None) =>
                let '(child, e) :=
                  set_walk (VObj PlainObject []) rest last value in
                (fst (set_prop target key child), e)
            end
          else
            let '(child, e) := set_walk cur rest last value in
            (fst (set_prop target key child), e)
      end = (target', None) ->
      fold_left get_step (rest ++ [last])%list (get_step target' key)
      = value).
    { intros Hk Hn.
      assert (Hgen : forall start,
        is_typeof_object target = true -> is_nullish target = false ->
        (let '(child, e) := set_walk start rest last value in
         (fst (set_prop target key child), e)) = (target', None) ->
        fold_left get_step (rest ++ [last])%list (get_step target' key)
        = value).
      { intros start Ho Hnull Hw.
        destruct (set_walk start rest last value) as [child e] eqn:Hc.
        injection Hw as Ht He. subst e.
        rewrite (get_step_set_prop target target' child key Hk).
        - eapply IH; eauto.
        - rewrite <- Ht. now apply set_prop_fst. }
      destruct target; try discriminate; cbv zeta in Hn;
        match type of Hn with
        | context [negb (is_typeof_object ?c) || is_nullish ?c] =>
            destruct (negb (is_typeof_object c) || is_nullish c) eqn:Hcur
        end;
        try (simpl in Hn; discriminate);
        try (eapply Hgen; eauto; reflexivity).
      all: simpl set_prop in Hn; eapply (Hgen (VObj PlainObject []));
        eauto; reflexivity. }
    destruct (Number_of_key key) as [i |] eqn:Hk.
    + destruct (Array_isArray target) eqn:Ha.
      * destruct (set_walk _ rest last value) as [child e] eqn:Hc in H.
        injection H as Ht He. subst e target'.
        rewrite (get_step_set_index target child key i Hk Ha).
        eapply IH; eauto.
      * apply Hname; auto.
    + apply Hname; auto.
Qed.

Lemma pop_app (keys parts : list string) (last : string) :
  pop keys = Some (parts, last) -> keys = (parts ++ [last])%list.
Proof.
  revert parts. induction keys as [| x rest IH]; intros parts H; simpl in H.
  - discriminate.
  - destruct rest as [| y rest'].
    + injection H as <- <-. reflexivity.
    + destruct (pop (y :: rest')) as [[init l] |] eqn:E; try discriminate.
      injection H as <- <-. simpl. f_equal. now apply IH.
Qed.

Lemma pop_some (keys : list string) :
  keys <> [] -> exists parts last, pop keys = Some (parts, last).
Proof.
  induction keys as [| x rest IH]; intros Hne; [congruence |].
  destruct rest as [| y rest'].
  - now exists [], x.
  - destruct IH as (parts & last & E); [congruence |].
    exists (x :: parts), last. simpl in *. now rewrite E.
Qed.

Lemma pop_last (keys parts : list string) (l : string) :
  pop keys = Some (parts, l) -> List.last keys "" = l.
Proof.
  intros H. apply pop_app in H. subst keys. apply last_last.
Qed.

Lemma setNestedValue_get
  (obj obj' : JsValue) (path : Path) (value : JsValue) :
  last_segment path <> "" ->
  setNestedValue obj path value = (obj', None) ->
  getNestedValue obj' path = value.
Proof.
  unfold setNestedValue, getNestedValue, last_segment. intros Hlast H.
  destruct (pop (path_keys path)) as [[parts last] |] eqn:Hp.
  - pose proof (pop_last _ _ _ Hp) as Hl.
    rewrite (pop_app _ _ _ Hp).
    destruct (last =? "") eqn:E.
    + apply String.eqb_eq in E. congruence.
    + eapply set_walk_get; eauto.
  - destruct (path_keys path) as [| x rest] eqn:Hk.
    + simpl in Hlast. congruence.
    + destruct (pop_some (x :: rest)) as (p & l & E); [congruence |].
      congruence.
Qed.



(** *** [isValidCurrencyCode] *)

Lemma includes_In (x : string) (l : list string) :
  includes x l = true <-> In x l.
Proof.
  unfold includes. rewrite existsb_exists. split.
  - intros (y & Hy & E). apply String.eqb_eq in E. now subst.
  - intros H. exists x. split; auto. apply String.eqb_refl.
Qed.

(** C3, at the input of the claim: the code "usd" against the allow-list
    ["usd"], which contains it, is rejected. *)
Lemma lower_case_allow_list_entry_never_matches :
  ~ (isValidCurrencyCode (VStr "usd") (Some ["usd"]) = true
     <-> exists entry,
           In entry ["usd"] /\ equal_ignoring_case entry "usd").
Proof.
  intros [_ H].
  assert (E : isValidCurrencyCode (VStr "usd") (Some ["usd"]) = true).
  { apply H. exists "usd". split; [now left | reflexivity]. }
  vm_compute in E. discriminate.
Qed.

(** C3, as the code has it: the code is put in upper case and then looked
    up verbatim, so [isValid(code, allowList)] holds exactly when the
    allow-list contains [code.toUpperCase()]; on an allow-list whose entries
    are in upper case this is membership ignoring letter case. *)
Theorem isValidCurrencyCode_looks_up_upper_cased_code
  (code : string) (allowList : list string) :
  (isValidCurrencyCode (VStr code) (Some allowList) = true
   <-> In (toUpperCase code) allowList)
  /\ ((forall entry, In entry allowList -> toUpperCase entry = entry) ->
      (isValidCurrencyCode (VStr code) (Some allowList) = true
       <-> exists entry,
             In entry allowList /\ equal_ignoring_case entry code)).
Proof.
  assert (H : isValidCurrencyCode (VStr code) (Some allowList) = true
              <-> In (toUpperCase code) allowList).
  { unfold isValidCurrencyCode. apply includes_In. }
  split; [exact H |].
  intros Hup. rewrite H. unfold equal_ignoring_case. split.
  - intros Hin. exists (toUpperCase code). split; [exact Hin |].
    now rewrite (Hup _ Hin).
  - intros (entry & Hin & E). rewrite <- E, (Hup _ Hin). exact Hin.
Qed.

Lemma isValidCurrencyCode_looks_up_upper_cased_code_witness :
  isValidCurrencyCode (VStr "usd") (Some ["USD"; "EUR"]) = true
  /\ ~ In (toUpperCase "usd") ["usd"].
Proof.
  split.
  - apply (proj2 (isValidCurrencyCode_looks_up_upper_cased_code
                    "usd" ["USD"; "EUR"])).
    + intros entry [<- | [<- | []]]; reflexivity.
    + exists "USD". split; [now left | reflexivity].
  - intros [H | []]. discriminate.
Defined.

(** C6: an allow-list that is supplied and empty rejects every code, of
    whatever type; with no allow-list the ISO 4217 table is the list, which
    accepts, for instance, "USD" and "eur". *)
Theorem empty_allow_list_rejects_everything :
  (forall code : JsValue, isValidCurrencyCode code (Some []) = false)
  /\ (forall code : JsValue,
        isValidCurrencyCode code None
        = isValidCurrencyCode code (Some ISO_4217_CODES))
  /\ isValidCurrencyCode (VStr "USD") None = true
  /\ isValidCurrencyCode (VStr "eur") None = true
  /\ isValidCurrencyCode (VStr "USD") (Some []) = false.
Proof.
  repeat split; try reflexivity.
  intros code. now destruct code.
Qed.

(** *** [defaultRound] *)


(** *** [setNestedValue] through an array *)

(** C7, at a failing input: in the record [{ a: [5] }] the path "a.0.b.c"
    runs through the number held by the array.  The array branch of the
    walk keeps any truthy element as the next container, so the write
    throws a TypeError, the record is unchanged and the read returns
    [undefined]; the same holds at "a.0.b".  The sibling branch replaces a
    number held by an object, and there the round trip holds. *)
Theorem setNestedValue_through_number_in_array :
  let record := VObj PlainObject [("a", VArr [VNum 5] [])] in
  let sibling :=
    VObj PlainObject [("a", VObj PlainObject [("k", VNum 5)])] in
  setNestedValue record (PathString "a.0.b.c") (VNum 1)
  = (record, Some TypeError)
  /\ getNestedValue
       (fst (setNestedValue record (PathString "a.0.b.c") (VNum 1)))
       (PathString "a.0.b.c") = VUndefined
  /\ setNestedValue record (PathString "a.0.b") (VNum 1)
     = (record, Some TypeError)
  /\ getNestedValue
       (fst (setNestedValue sibling (PathString "a.k.b.c") (VNum 1)))
       (PathString "a.k.b.c") = VNum 1.
Proof. repeat split; reflexivity. Qed.

End HelpersSpec.

(* ------------------------------------------------------------------------- *)
(** ** Facts about binary64 numbers *)

Module FloatFacts.

Lemma SFcompare_refl (x : spec_float) :
  x <> S754_nan -> SFcompare x x = Some Eq.
Proof.
  destruct x as [s | s | | s m e]; simpl; intros H; try congruence;
    destruct s; try reflexivity;
    rewrite Z.compare_refl, Pos.compare_cont_refl; reflexivity.
Qed.

(** The only number that [Number.isNaN] accepts is [nan]. *)
Lemma isNaN_eq (x : float) : Number_isNaN x = true -> x = nan.
Proof.
  unfold Number_isNaN, PrimFloat.is_nan. intros H.
  rewrite FloatAxioms.eqb_spec in H. unfold SFeqb in H.
  destruct (Prim2SF x) eqn:E;
    try (rewrite SFcompare_refl in H by congruence; discriminate).
  rewrite <- (SF2Prim_Prim2SF x), E. reflexivity.
Qed.

Lemma nan_mul (y : float) : (nan * y)%float = nan.
Proof.
  rewrite <- (SF2Prim_Prim2SF (nan * y)), FloatAxioms.mul_spec.
  reflexivity.
Qed.

End FloatFacts.

(* ------------------------------------------------------------------------- *)
(** ** Properties of [applyCurrencyConversion] *)

Module PluginSpec.

Section Properties.

Variable W : Type.
Variable rt : Runtime W.
Variable opts : Options W.

Local Abbreviation St := (State W).

Lemma eqb_false_of_neq (a b : string) : a <> b -> (a =? b) = false.
Proof. intros H. now apply String.eqb_neq. Qed.

Lemma iteration_guarded (field : CurrencyFieldConfig) (s : St)
  (amount : JsValue) (fromCurrency : string) :
  passes_guards rt opts field s amount fromCurrency ->
  iteration rt opts field s
  = convertGuarded rt opts field amount fromCurrency s.
Proof.
  intros (Ht & Hs & Ha & Hn & Hc & Hf & Hv1 & Hv2).
  unfold iteration.
  rewrite (eqb_false_of_neq _ _ Ht), Hs. cbn [negb].
  unfold bind at 1, readDoc at 1. rewrite Ha, Hn, Hc.
  rewrite (eqb_false_of_neq _ _ Hf).
  unfold checkCodes. now rewrite Hv1, Hv2.
Qed.

Lemma iteration_reaches_try (field : CurrencyFieldConfig) (s s1 : St)
  (amount : JsValue) (fromCurrency : string) (conversionDate : float) :
  reaches_rate_step rt opts field s amount fromCurrency conversionDate s1 ->
  iteration rt opts field s
  = tryCatch
      (bind
         (convert rt opts field amount fromCurrency conversionDate
            (cacheKeyOf rt fromCurrency field conversionDate))
         (fun _ => ret Continue))
      (onFailure opts field fromCurrency conversionDate) s1.
Proof.
  intros (Hg & Hd & Hv).
  rewrite (iteration_guarded _ _ _ _ Hg).
  unfold convertGuarded. unfold bind at 1. rewrite Hd.
  unfold bind at 1, makeCacheKey. rewrite Hv. reflexivity.
Qed.

(** The rate resolution when the cache, if any, has no entry. *)
Lemma lookupRate_on_miss (field : CurrencyFieldConfig)
  (fromCurrency : string) (conversionDate : float) (key : string)
  (s : St) (w1 w2 : W) (res : Outcome (option float)) :
  cache_missed opts key (world s) w1 ->
  getRate opts fromCurrency (toCurrency field) conversionDate w1
  = (res, w2) ->
  lookupRate opts field fromCurrency conversionDate key s
  = match res with
    | Throws e =>
        (Throws e,
         after s w2 (lookup_events opts key fromCurrency field
                       conversionDate))
    | Ok rate =>
        match cache opts, rate with
        | Some c, Some x =>
            if Number_isNaN x then
              (Ok rate,
               after s w2 (lookup_events opts key fromCurrency field
                             conversionDate))
            else
              let '(o, w3) := cache_set c key x w2 in
              (match o with Ok _ => Ok rate | Throws e => Throws e end,
               after s w3
                 (lookup_events opts key fromCurrency field conversionDate
                  ++ [CacheSet key x])%list)
        | _, _ =>
            (Ok rate,
             after s w2 (lookup_events opts key fromCurrency field
                           conversionDate))
        end
    end.
Proof.
  unfold cache_missed, lookupRate, lookup_events, after.
  intros Hm Hr. destruct (cache opts) as [c |].
  - unfold bind, emit, call, ret. cbn [world doc convertedFields log].
    rewrite Hm. cbn [world doc convertedFields log]. rewrite Hr.
    destruct res as [[x |] | e]; try (rewrite <- app_assoc; reflexivity).
    destruct (Number_isNaN x); cbn [negb];
      try (rewrite <- app_assoc; reflexivity).
    cbn [world doc convertedFields log].
    destruct (cache_set c key x w2) as [[[] | e] w3];
      cbn [log]; rewrite <- !app_assoc; reflexivity.
  - subst w1. unfold bind, emit, call, ret.
    cbn [world doc convertedFields log]. rewrite Hr.
    destruct res as [[x |] | e]; reflexivity.
Qed.

Lemma lookupRate_answer (field : CurrencyFieldConfig)
  (fromCurrency : string) (conversionDate : float) (key : string)
  (s : St) (w1 w2 w3 : W) (rate : option float) :
  cache_missed opts key (world s) w1 ->
  getRate opts fromCurrency (toCurrency field) conversionDate w1
  = (Ok rate, w2) ->
  cache_written opts key rate w2 w3 ->
  lookupRate opts field fromCurrency conversionDate key s
  = (Ok rate,
     after s w3
       (lookup_events opts key fromCurrency field conversionDate
        ++ cache_write_events opts key rate)%list).
Proof.
  intros Hm Hr Hw.
  rewrite (lookupRate_on_miss _ _ _ _ _ _ _ _ Hm Hr).
  unfold cache_written, cache_write_events in *.
  destruct (cache opts) as [c |]; [destruct rate as [x |] |].
  - destruct (Number_isNaN x).
    + subst w3. now rewrite app_nil_r.
    + now rewrite Hw.
  - subst w3. now rewrite app_nil_r.
  - subst w3. now rewrite app_nil_r.
Qed.

(** The conversion with a rate in hand: lines 108-114. *)
Lemma convert_with_rate (field : CurrencyFieldConfig) (amount : JsValue)
  (fromCurrency : string) (conversionDate rate : float) (key : string)
  (r : option float) (s1 s2 : St) (d' : JsValue) :
  lookupRate opts field fromCurrency conversionDate key s1 = (Ok r, s2) ->
  checkRate opts r s2 = (Ok rate, s2) ->
  setNestedValue (doc s2) (PathString (targetPath field))
    (convertedValue rt opts field amount rate conversionDate) = (d', None) ->
  tryCatch
    (bind (convert rt opts field amount fromCurrency conversionDate key)
       (fun _ => ret Continue))
    (onFailure opts field fromCurrency conversionDate) s1
  = (Ok Continue,
     written s2 d' (targetPath field)
       (convertedValue rt opts field amount rate conversionDate)).
Proof.
  intros Hl Hc Hw.
  unfold tryCatch, convert, bind. rewrite Hl, Hc.
  unfold assign. rewrite Hw. reflexivity.
Qed.

(** *** What the steps append to the trace *)

Lemma emits_ret (P : Event -> Prop) (A : Type) (a : A) :
  emits P (ret (W := W) a).
Proof. intros s. exists []. simpl. now rewrite app_nil_r. Qed.

Lemma emits_throw (P : Event -> Prop) (A : Type) (e : JsError) :
  emits P (throw (W := W) (A := A) e).
Proof. intros s. exists []. simpl. now rewrite app_nil_r. Qed.

Lemma emits_bind (P : Event -> Prop) (A B : Type) (m : M W A)
  (k : A -> M W B) :
  emits P m -> (forall a, emits P (k a)) -> emits P (bind m k).
Proof.
  intros Hm Hk s. unfold bind.
  destruct (Hm s) as (evs & E & F).
  destruct (m s) as [[a | e] s1]; simpl in E.
  - destruct (Hk a s1) as (evs' & E' & F').
    exists (evs ++ evs')%list. rewrite E', E, app_assoc. split; auto.
    apply Forall_app; auto.
  - exists evs. simpl. auto.
Qed.

Lemma emits_tryCatch (P : Event -> Prop) (A : Type) (m : M W A)
  (h : JsError -> M W A) :
  emits P m -> (forall e, emits P (h e)) -> emits P (tryCatch m h).
Proof.
  intros Hm Hh s. unfold tryCatch.
  destruct (Hm s) as (evs & E & F).
  destruct (m s) as [[a | e] s1]; simpl in E.
  - exists evs. simpl. auto.
  - destruct (Hh e s1) as (evs' & E' & F').
    exists (evs ++ evs')%list. rewrite E', E, app_assoc. split; auto.
    apply Forall_app; auto.
Qed.

Lemma emits_emit (P : Event -> Prop) (ev : Event) :
  P ev -> emits P (emit (W := W) ev).
Proof. intros H s. exists [ev]. simpl. auto. Qed.

Lemma emits_call (P : Event -> Prop) (A : Type)
  (f : W -> Outcome A * W) : emits P (call f).
Proof.
  intros s. exists []. unfold call. destruct (f (world s)). simpl.
  now rewrite app_nil_r.
Qed.

Lemma emits_assign (P : Event -> Prop) (path : string) (v : JsValue) :
  emits P (assign (W := W) path v).
Proof.
  intros s. exists []. unfold assign.
  destruct (setNestedValue (doc s) (PathString path) v) as [d [e |]];
    simpl; now rewrite app_nil_r.
Qed.

Lemma emits_push (P : Event -> Prop) (path : string) :
  emits P (push (W := W) path).
Proof. intros s. exists []. simpl. now rewrite app_nil_r. Qed.

Lemma emits_if (P : Event -> Prop) (A : Type) (b : bool) (m1 m2 : M W A) :
  emits P m1 -> emits P m2 -> emits P (if b then m1 else m2).
Proof. now destruct b. Qed.

Lemma emits_erase (P : Event -> Prop) (path : string) :
  P (TargetErased path) -> emits P (erase (W := W) path).
Proof.
  intros H. unfold erase. apply emits_bind.
  - now apply emits_emit.
  - intros _. apply emits_assign.
Qed.

Lemma emits_rollback (P : Event -> Prop) (fs : list CurrencyFieldConfig) :
  (forall path, P (TargetErased path)) -> emits P (rollback (W := W) fs).
Proof.
  intros H. induction fs as [| f rest IH]; simpl.
  - apply emits_ret.
  - apply emits_bind; [| auto].
    apply emits_if; [apply emits_ret | now apply emits_erase].
Qed.

(** *** The failure handler *)

Lemma report_result (field : CurrencyFieldConfig) (fromCurrency : string)
  (conversionDate : float) (e : JsError) (s : St) :
  exists w,
    report opts field fromCurrency conversionDate e s
    = (Ok tt, after s w [reported opts field fromCurrency conversionDate e]).
Proof.
  unfold report, reported, after.
  destruct (onError opts) as [f |].
  - eexists. unfold bind, emit, callback, call. simpl. reflexivity.
  - exists (world s). reflexivity.
Qed.

Lemma onFailure_trace (field : CurrencyFieldConfig) (fromCurrency : string)
  (conversionDate : float) (e : JsError) (s : St) :
  exists evs,
    log (snd (onFailure opts field fromCurrency conversionDate e s))
    = (log s ++ reported opts field fromCurrency conversionDate e :: evs)%list
    /\ Forall is_erasure evs.
Proof.
  unfold onFailure, bind.
  destruct (report_result field fromCurrency conversionDate e s) as (w & ->).
  destruct (rollbackOnError opts).
  - destruct (emits_rollback is_erasure (fields opts) (fun _ => I)
                (after s w
                   [reported opts field fromCurrency conversionDate e]))
      as (evs & E & F).
    exists evs. split; auto.
    destruct (rollback (fields opts) _) as [[[] | e'] s2]; simpl in *;
      rewrite E, <- app_assoc; reflexivity.
  - exists []. simpl. auto.
Qed.

(** C2: for a field that reaches the rate resolution with a fallback rate
    configured: when the resolver returns a rate that is undefined, zero or
    NaN, the fallback rate takes its place and, the write completing, the
    field is converted with it; when the resolver rejects, the rejection
    goes to the failure handler: it is reported, and nothing is written
    for the field. *)
Theorem fallback_for_returned_rate_only
  (field : CurrencyFieldConfig) (s s1 : St) (amount : JsValue)
  (fromCurrency : string) (conversionDate fb : float) :
  reaches_rate_step rt opts field s amount fromCurrency conversionDate s1 ->
  fallbackRate opts = Some fb ->
  let key := cacheKeyOf rt fromCurrency field conversionDate in
  let requested :=
    lookup_events opts key fromCurrency field conversionDate in
  (forall (rate : option float) (w1 w2 w3 : W) (d' : JsValue),
      cache_missed opts key (world s1) w1 ->
      getRate opts fromCurrency (toCurrency field) conversionDate w1
      = (Ok rate, w2) ->
      rate_unusable rate = true ->
      cache_written opts key rate w2 w3 ->
      setNestedValue (doc s1) (PathString (targetPath field))
        (convertedValue rt opts field amount fb conversionDate)
      = (d', None) ->
      iteration rt opts field s
      = (Ok Continue,
         written
           (after s1 w3 (requested ++ cache_write_events opts key rate))
           d' (targetPath field)
           (convertedValue rt opts field amount fb conversionDate)))
  /\
  (forall (e : JsError) (w1 w2 : W),
      cache_missed opts key (world s1) w1 ->
      getRate opts fromCurrency (toCurrency field) conversionDate w1
      = (Throws e, w2) ->
      iteration rt opts field s
      = onFailure opts field fromCurrency conversionDate e
          (after s1 w2 requested)
      /\ exists erasures,
          log (snd (iteration rt opts field s))
          = (log s1 ++ requested
             ++ reported opts field fromCurrency conversionDate e
                :: erasures)%list
          /\ Forall is_erasure erasures).
Proof.
  intros Hreach Hfb key requested. subst key requested. split.
  - intros rate w1 w2 w3 d' Hm Hr Hu Hc Hw.
    rewrite (iteration_reaches_try _ _ _ _ _ _ Hreach).
    apply convert_with_rate with (r := rate).
    + now apply lookupRate_answer with (w1 := w1) (w2 := w2).
    + unfold checkRate. rewrite Hfb.
      destruct rate as [x |]; simpl in Hu; [now rewrite Hu | reflexivity].
    + exact Hw.
  - intros e w1 w2 Hm Hr.
    rewrite (iteration_reaches_try _ _ _ _ _ _ Hreach).
    set (key := cacheKeyOf rt fromCurrency field conversionDate) in *.
    set (requested :=
           lookup_events opts key fromCurrency field conversionDate).
    assert (Hrun :
      tryCatch
        (bind (convert rt opts field amount fromCurrency conversionDate key)
           (fun _ => ret Continue))
        (onFailure opts field fromCurrency conversionDate) s1
      = onFailure opts field fromCurrency conversionDate e
          (after s1 w2 requested)).
    { unfold tryCatch, convert, bind.
      now rewrite (lookupRate_on_miss _ _ _ _ _ _ _ _ Hm Hr). }
    rewrite Hrun. split; [reflexivity |].
    destruct (onFailure_trace field fromCurrency conversionDate e
                (after s1 w2 requested)) as (evs & E & F).
    exists evs. split; auto.
    rewrite E. simpl. now rewrite <- app_assoc.
Qed.

(** *** The steps that follow the rate resolution *)

Lemma emits_weaken (P Q : Event -> Prop) (A : Type) (m : M W A) :
  (forall ev, P ev -> Q ev) -> emits P m -> emits Q m.
Proof.
  intros H Hm s. destruct (Hm s) as (evs & E & F).
  exists evs. split; auto. eapply Forall_impl; eauto.
Qed.

Lemma emits_report (field : CurrencyFieldConfig) (fromCurrency : string)
  (conversionDate : float) (e : JsError) :
  emits failure_event (report opts field fromCurrency conversionDate e).
Proof.
  unfold report. destruct (onError opts) as [f |].
  - apply emits_bind; [now apply emits_emit |].
    intros _. apply emits_call.
  - now apply emits_emit.
Qed.

Lemma emits_onFailure (field : CurrencyFieldConfig) (fromCurrency : string)
  (conversionDate : float) (e : JsError) :
  emits failure_event (onFailure opts field fromCurrency conversionDate e).
Proof.
  unfold onFailure. apply emits_bind; [apply emits_report |].
  intros _. apply emits_if; [| apply emits_ret].
  apply emits_bind; [| intros _; apply emits_ret].
  apply emits_rollback. intros path. exact I.
Qed.

(** Once the rate resolution has answered, the rest of the iteration only
    writes the target, or reports and rolls back. *)
Lemma emits_after_lookup (field : CurrencyFieldConfig) (amount : JsValue)
  (fromCurrency : string) (conversionDate : float) (key : string)
  (s1 s2 : St) (res : Outcome (option float)) :
  lookupRate opts field fromCurrency conversionDate key s1 = (res, s2) ->
  exists evs,
    log (snd (tryCatch
                (bind (convert rt opts field amount fromCurrency
                         conversionDate key)
                   (fun _ => ret Continue))
                (onFailure opts field fromCurrency conversionDate) s1))
    = (log s2 ++ evs)%list
    /\ Forall conversion_event evs.
Proof.
  intros Hl.
  assert (Hh : forall e,
    emits conversion_event
      (onFailure opts field fromCurrency conversionDate e)).
  { intros e. eapply emits_weaken; [| apply emits_onFailure].
    now intros []. }
  destruct res as [rate | e].
  - pose (tail :=
      bind (checkRate opts rate)
        (fun r : float =>
           let value :=
             convertedValue rt opts field amount r conversionDate in
           bind (assign (targetPath field) value)
             (fun _ =>
                bind (emit (TargetWritten (targetPath field) value))
                  (fun _ => push (W := W) (targetPath field))))).
    assert (Ht : emits conversion_event
                   (tryCatch (bind tail (fun _ => ret Continue))
                      (onFailure opts field fromCurrency conversionDate))).
    { apply emits_tryCatch; auto.
      apply emits_bind; [| intros _; apply emits_ret].
      unfold tail. apply emits_bind.
      - unfold checkRate.
        destruct rate as [x |];
          [destruct (is_zero x || Number_isNaN x) |];
          destruct (fallbackRate opts);
          auto using emits_ret, emits_throw.
      - intros r. cbv zeta. apply emits_bind; [apply emits_assign |].
        intros _. apply emits_bind; [now apply emits_emit |].
        intros _. apply emits_push. }
    destruct (Ht s2) as (evs & E & F). exists evs. split; auto.
    rewrite <- E. unfold tryCatch, convert, tail, bind. now rewrite Hl.
  - destruct (Hh e s2) as (evs & E & F). exists evs. split; auto.
    rewrite <- E. unfold tryCatch, convert, bind. now rewrite Hl.
Qed.

Lemma conversion_event_not_cache_write (evs : list Event) (k : string)
  (v : float) : Forall conversion_event evs -> ~ In (CacheSet k v) evs.
Proof.
  intros F Hin. rewrite Forall_forall in F. exact (F _ Hin).
Qed.

(** C5, as the code has it: for a field that reaches the rate resolution
    with a cache configured, after a cache miss and an answer [rate] of the
    resolver, the iteration calls [cache.set] exactly when [rate] is neither
    undefined nor NaN, and then with the cache key of the field and that
    rate; zero and the infinities are written like any other number. *)
Theorem cache_populated_unless_undefined_or_NaN
  (field : CurrencyFieldConfig) (s s1 : St) (amount : JsValue)
  (fromCurrency : string) (conversionDate : float)
  (c : CurrencyRateCache W) (w1 w2 : W) (rate : option float) :
  reaches_rate_step rt opts field s amount fromCurrency conversionDate s1 ->
  cache opts = Some c ->
  cache_get c (cacheKeyOf rt fromCurrency field conversionDate) (world s1)
  = (Ok None, w1) ->
  getRate opts fromCurrency (toCurrency field) conversionDate w1
  = (Ok rate, w2) ->
  exists evs,
    log (snd (iteration rt opts field s)) = (log s1 ++ evs)%list
    /\ forall (k : string) (v : float),
        In (CacheSet k v) evs
        <-> (k = cacheKeyOf rt fromCurrency field conversionDate
             /\ rate = Some v /\ Number_isNaN v = false).
Proof.
  intros Hreach Hc Hg Hr.
  rewrite (iteration_reaches_try _ _ _ _ _ _ Hreach).
  set (key := cacheKeyOf rt fromCurrency field conversionDate) in *.
  assert (Hm : cache_missed opts key (world s1) w1).
  { unfold cache_missed. now rewrite Hc. }
  pose proof (lookupRate_on_miss field fromCurrency conversionDate key
                s1 w1 w2 (Ok rate) Hm Hr) as Hl.
  unfold lookup_events in Hl. rewrite Hc in Hl.
  destruct rate as [x |]; [destruct (Number_isNaN x) eqn:Hnan |].
  - destruct (emits_after_lookup field amount fromCurrency conversionDate
                key _ _ _ Hl) as (evs & E & F).
    eexists. split; [rewrite E; simpl; rewrite <- app_assoc; reflexivity |].
    intros k v. rewrite in_app_iff. split.
    + cbn [In]. intros [[H | [H | []]] | H]; try discriminate.
      now apply conversion_event_not_cache_write in H.
    + intros (_ & Hx & Hv). injection Hx as ->. congruence.
  - destruct (cache_set c key x w2) as [o w3] eqn:Hset.
    destruct (emits_after_lookup field amount fromCurrency conversionDate
                key _ _ _ Hl) as (evs & E & F).
    eexists. split; [rewrite E; simpl; rewrite <- app_assoc; reflexivity |].
    intros k v. rewrite !in_app_iff. split.
    + cbn [In]. intros [[H | [H | [H | []]]] | H]; try discriminate.
      * injection H as <- <-. auto.
      * now apply conversion_event_not_cache_write in H.
    + intros (-> & Hx & _). injection Hx as ->. left. cbn [In]. auto.
  - destruct (emits_after_lookup field amount fromCurrency conversionDate
                key _ _ _ Hl) as (evs & E & F).
    eexists. split; [rewrite E; simpl; rewrite <- app_assoc; reflexivity |].
    intros k v. rewrite in_app_iff. split.
    + cbn [In]. intros [[H | [H | []]] | H]; try discriminate.
      now apply conversion_event_not_cache_write in H.
    + intros (_ & Hx & _). discriminate.
Qed.


(** *** Exceptions that escape *)

Lemma raises_ret (Q : JsError -> Prop) (A : Type) (a : A) :
  raises Q (ret (W := W) a).
Proof. intros s e s' H. discriminate. Qed.

Lemma raises_throw (Q : JsError -> Prop) (A : Type) (e : JsError) :
  Q e -> raises Q (throw (W := W) (A := A) e).
Proof. intros H s e' s' E. injection E as <- _. exact H. Qed.

Lemma raises_bind (Q : JsError -> Prop) (A B : Type) (m : M W A)
  (k : A -> M W B) :
  raises Q m -> (forall a, raises Q (k a)) -> raises Q (bind m k).
Proof.
  intros Hm Hk s e s' H. unfold bind in H.
  destruct (m s) as [[a | e0] s1] eqn:E.
  - eapply Hk; eauto.
  - injection H as <- <-. eapply Hm; eauto.
Qed.

Lemma raises_tryCatch (Q : JsError -> Prop) (A : Type) (m : M W A)
  (h : JsError -> M W A) :
  (forall e, raises Q (h e)) -> raises Q (tryCatch m h).
Proof.
  intros Hh s e s' H. unfold tryCatch in H.
  destruct (m s) as [[a | e0] s1] eqn:E.
  - discriminate.
  - eapply Hh; eauto.
Qed.

Lemma raises_emit (Q : JsError -> Prop) (ev : Event) :
  raises Q (emit (W := W) ev).
Proof. intros s e s' H. discriminate. Qed.

Lemma raises_readDoc (Q : JsError -> Prop) : raises Q (readDoc (W := W)).
Proof. intros s e s' H. discriminate. Qed.

Lemma raises_callback (Q : JsError -> Prop) (f : W -> W) :
  raises Q (callback f).
Proof. intros s e s' H. discriminate. Qed.

Lemma raises_newDate (Q : JsError -> Prop) (now : W -> float * W) :
  raises Q (newDate now).
Proof.
  intros s e s' H. unfold newDate, call in H.
  destruct (now (world s)). discriminate.
Qed.

Lemma raises_if (Q : JsError -> Prop) (A : Type) (b : bool)
  (m1 m2 : M W A) :
  raises Q m1 -> raises Q m2 -> raises Q (if b then m1 else m2).
Proof. now destruct b. Qed.

Lemma raises_report (Q : JsError -> Prop) (field : CurrencyFieldConfig)
  (fromCurrency : string) (conversionDate : float) (e : JsError) :
  raises Q (report opts field fromCurrency conversionDate e).
Proof.
  unfold report. destruct (onError opts).
  - apply raises_bind; [apply raises_emit |].
    intros _. apply raises_callback.
  - apply raises_emit.
Qed.

Lemma raises_resolveDate (Q : JsError -> Prop)
  (field : CurrencyFieldConfig) : raises Q (resolveDate rt opts field).
Proof.
  unfold resolveDate. apply raises_bind; [apply raises_readDoc |].
  intros d. apply raises_bind.
  - apply raises_if; [apply raises_ret | apply raises_newDate].
  - intros t. destruct (dateTransform opts); apply raises_ret.
Qed.

Lemma raises_checkCodes (Q : JsError -> Prop) (field : CurrencyFieldConfig)
  (fromCurrency : string) (k : M W Flow) :
  raises Q k -> raises Q (checkCodes opts field fromCurrency k).
Proof.
  intros Hk. unfold checkCodes.
  repeat apply raises_if; auto;
    (apply raises_bind; [apply raises_emit | intros _; apply raises_ret]).
Qed.

Lemma raises_iteration_without_rollback (field : CurrencyFieldConfig) :
  rollbackOnError opts = false ->
  raises is_RangeError (iteration rt opts field).
Proof.
  intros Hno.
  assert (Hwarn : forall msg,
    raises is_RangeError
      (bind (emit (W := W) (Warn msg)) (fun _ => ret Continue))).
  { intros msg. apply raises_bind; [apply raises_emit |].
    intros _. apply raises_ret. }
  unfold iteration.
  repeat apply raises_if; auto.
  apply raises_bind; [apply raises_readDoc |]. intros d.
  apply raises_if; [apply raises_ret |].
  destruct (getNestedValue d (PathString (currencyPath field))); auto.
  apply raises_if; auto.
  apply raises_checkCodes. unfold convertGuarded.
  apply raises_bind; [apply raises_resolveDate |]. intros t.
  apply raises_bind.
  - unfold makeCacheKey. apply raises_if;
      [now apply raises_throw | apply raises_ret].
  - intros key. apply raises_tryCatch. intros e.
    unfold onFailure. rewrite Hno.
    apply raises_bind; [apply raises_report |].
    intros _. apply raises_ret.
Qed.

Lemma raises_forEachField (Q : JsError -> Prop)
  (body : CurrencyFieldConfig -> M W Flow) (fs : list CurrencyFieldConfig) :
  (forall f, raises Q (body f)) -> raises Q (forEachField body fs).
Proof.
  intros Hb. induction fs as [| f rest IH]; simpl.
  - apply raises_ret.
  - apply raises_bind; [apply Hb |].
    intros []; [exact IH | apply raises_ret].
Qed.


(** *** Targets written and erased *)

Lemma written_paths_app (l1 l2 : list Event) :
  written_paths (l1 ++ l2) = (written_paths l1 ++ written_paths l2)%list.
Proof.
  induction l1 as [| ev rest IH]; simpl; auto.
  destruct ev; simpl; congruence.
Qed.

Lemma erased_paths_app (l1 l2 : list Event) :
  erased_paths (l1 ++ l2) = (erased_paths l1 ++ erased_paths l2)%list.
Proof.
  induction l1 as [| ev rest IH]; simpl; auto.
  destruct ev; simpl; congruence.
Qed.

Lemma same_paths_refl (s : St) : same_paths s s.
Proof. repeat split. Qed.

Lemma same_paths_trans (s1 s2 s3 : St) :
  same_paths s1 s2 -> same_paths s2 s3 -> same_paths s1 s3.
Proof.
  intros (A1 & B1 & C1) (A2 & B2 & C2). repeat split; congruence.
Qed.

Lemma same_paths_consistent (s s' : St) :
  same_paths s s' -> consistent s -> consistent s'.
Proof.
  intros (A & B & C) (H1 & H2). split; congruence.
Qed.

Lemma neutral_ret (A : Type) (a : A) : neutral (ret (W := W) a).
Proof. intros s. apply same_paths_refl. Qed.

Lemma neutral_throw (A : Type) (e : JsError) :
  neutral (throw (W := W) (A := A) e).
Proof. intros s. apply same_paths_refl. Qed.

Lemma neutral_bind (A B : Type) (m : M W A) (k : A -> M W B) :
  neutral m -> (forall a, neutral (k a)) -> neutral (bind m k).
Proof.
  intros Hm Hk s. unfold bind. pose proof (Hm s) as H1.
  destruct (m s) as [[a | e] s1]; simpl in *; auto.
  eapply same_paths_trans; [exact H1 | apply Hk].
Qed.

Lemma neutral_if (A : Type) (b : bool) (m1 m2 : M W A) :
  neutral m1 -> neutral m2 -> neutral (if b then m1 else m2).
Proof. now destruct b. Qed.

Lemma neutral_emit (ev : Event) :
  written_paths [ev] = [] -> erased_paths [ev] = [] ->
  neutral (emit (W := W) ev).
Proof.
  intros Hw He s. unfold same_paths. simpl.
  rewrite written_paths_app, erased_paths_app, Hw, He, !app_nil_r. auto.
Qed.

Lemma neutral_call (A : Type) (f : W -> Outcome A * W) : neutral (call f).
Proof.
  intros s. unfold call. destruct (f (world s)). repeat split.
Qed.

Lemma neutral_readDoc : neutral (readDoc (W := W)).
Proof. intros s. apply same_paths_refl. Qed.

Lemma neutral_assign (path : string) (v : JsValue) :
  neutral (assign (W := W) path v).
Proof.
  intros s. unfold assign.
  destruct (setNestedValue (doc s) (PathString path) v) as [d [e |]];
    repeat split.
Qed.

Lemma neutral_lookupRate (field : CurrencyFieldConfig)
  (fromCurrency : string) (conversionDate : float) (key : string) :
  neutral (lookupRate opts field fromCurrency conversionDate key).
Proof.
  unfold lookupRate. apply neutral_bind.
  - destruct (cache opts); [| apply neutral_ret].
    apply neutral_bind; [now apply neutral_emit |].
    intros _. apply neutral_call.
  - intros [x |]; [apply neutral_ret |].
    apply neutral_bind; [now apply neutral_emit |]. intros _.
    apply neutral_bind; [apply neutral_call |]. intros rate.
    destruct (cache opts); [destruct rate |]; try apply neutral_ret.
    apply neutral_if; [| apply neutral_ret].
    apply neutral_bind; [now apply neutral_emit |]. intros _.
    apply neutral_bind; [apply neutral_call |]. intros _.
    apply neutral_ret.
Qed.

Lemma neutral_checkRate (rate : option float) :
  neutral (checkRate (W := W) opts rate).
Proof.
  unfold checkRate.
  destruct rate as [x |]; [destruct (is_zero x || Number_isNaN x) |];
    destruct (fallbackRate opts);
    auto using neutral_ret, neutral_throw.
Qed.

Lemma neutral_report (field : CurrencyFieldConfig) (fromCurrency : string)
  (conversionDate : float) (e : JsError) :
  neutral (report opts field fromCurrency conversionDate e).
Proof.
  unfold report. destruct (onError opts).
  - apply neutral_bind; [now apply neutral_emit |].
    intros _. apply neutral_call.
  - now apply neutral_emit.
Qed.

Lemma neutral_resolveDate (field : CurrencyFieldConfig) :
  neutral (resolveDate rt opts field).
Proof.
  unfold resolveDate. apply neutral_bind; [apply neutral_readDoc |].
  intros d. apply neutral_bind.
  - apply neutral_if; [apply neutral_ret | apply neutral_call].
  - intros t. destruct (dateTransform opts); apply neutral_ret.
Qed.

Lemma neutral_makeCacheKey (fromCurrency to : string)
  (conversionDate : float) :
  neutral (makeCacheKey rt fromCurrency to conversionDate).
Proof.
  unfold makeCacheKey.
  apply neutral_if; [apply neutral_throw | apply neutral_ret].
Qed.

(** A completed conversion appends its target to [convertedFields] and to
    the targets written; an interrupted one appends nothing. *)
Lemma convert_paths (field : CurrencyFieldConfig) (amount : JsValue)
  (fromCurrency : string) (conversionDate : float) (key : string)
  (s s' : St) (r : Outcome unit) :
  convert rt opts field amount fromCurrency conversionDate key s = (r, s') ->
  match r with
  | Ok _ =>
      convertedFields s' = (convertedFields s ++ [targetPath field])%list
      /\ written_paths (log s')
         = (written_paths (log s) ++ [targetPath field])%list
      /\ erased_paths (log s') = erased_paths (log s)
  | Throws _ => same_paths s s'
  end.
Proof.
  unfold convert, bind. intros H.
  pose proof (neutral_lookupRate field fromCurrency conversionDate key s)
    as H1.
  destruct (lookupRate opts field fromCurrency conversionDate key s)
    as [[rate0 | e] s1]; simpl in H1.
  2: { injection H as <- <-. exact H1. }
  pose proof (neutral_checkRate rate0 s1) as H2.
  destruct (checkRate opts rate0 s1) as [[rate | e] s2]; simpl in H2.
  2: { injection H as <- <-. eapply same_paths_trans; eauto. }
  pose proof (neutral_assign (targetPath field)
                (convertedValue rt opts field amount rate conversionDate) s2)
    as H3.
  destruct (assign (targetPath field)
              (convertedValue rt opts field amount rate conversionDate) s2)
    as [[[] | e] s3]; simpl in H3.
  2: { injection H as <- <-.
       eapply same_paths_trans; [| exact H3].
       eapply same_paths_trans; eauto. }
  injection H as <- <-. simpl.
  destruct H1 as (A1 & B1 & C1), H2 as (A2 & B2 & C2),
    H3 as (A3 & B3 & C3).
  rewrite written_paths_app, erased_paths_app. simpl.
  rewrite app_nil_r. repeat split; congruence.
Qed.

(** The rollback of [convertedFields] erases the paths it is given, in
    order, up to the first write that throws. *)
Lemma rollbackConverted_paths (paths : list string) :
  forall (s s' : St) (r : Outcome unit),
    rollbackConverted paths s = (r, s') ->
    exists done rest,
      paths = (done ++ rest)%list
      /\ convertedFields s' = convertedFields s
      /\ written_paths (log s') = written_paths (log s)
      /\ erased_paths (log s') = (erased_paths (log s) ++ done)%list
      /\ (r = Ok tt -> rest = []).
Proof.
  induction paths as [| p more IH]; intros s s' r H; simpl in H.
  - injection H as <- <-. exists [], [].
    repeat split; now rewrite app_nil_r.
  - unfold bind at 1, erase, bind, emit, assign in H. simpl in H.
    destruct (setNestedValue (doc s) (PathString p) VUndefined)
      as [d [e |]].
    + injection H as <- <-. exists [p], more. simpl.
      rewrite written_paths_app, erased_paths_app. simpl.
      rewrite app_nil_r. repeat split. discriminate.
    + destruct (IH _ _ _ H) as (done & rest & E & A & B & C & D).
      simpl in A, B, C.
      rewrite written_paths_app in B. rewrite erased_paths_app in C.
      simpl in B, C. rewrite app_nil_r in B. rewrite <- app_assoc in C.
      exists (p :: done), rest. simpl. repeat split; auto. congruence.
Qed.

Lemma rollback_paths (fs : list CurrencyFieldConfig) :
  forall (s s' : St) (r : Outcome unit),
    rollback fs s = (r, s') ->
    exists done rest,
      rollback_targets fs = (done ++ rest)%list
      /\ erased_paths (log s') = (erased_paths (log s) ++ done)%list
      /\ (r = Ok tt -> rest = []).
Proof.
  unfold rollback_targets.
  induction fs as [| f more IH]; intros s s' r H; simpl in H.
  - injection H as <- <-. exists [], [].
    repeat split; now rewrite app_nil_r.
  - simpl map. simpl filter. unfold bind at 1 in H.
    destruct (targetPath f =? "") eqn:Et; simpl negb.
    + apply (IH _ _ _ H).
    + unfold erase, bind, emit, assign in H. simpl in H.
      destruct (setNestedValue (doc s) (PathString (targetPath f))
                  VUndefined) as [d [e |]].
      * injection H as <- <-.
        exists [targetPath f],
               (filter (fun path => negb (path =? ""))
                  (map targetPath more)).
        simpl. rewrite erased_paths_app. simpl.
        repeat split. discriminate.
      * destruct (IH _ _ _ H) as (done & rest & E & C & D).
        simpl in C. rewrite erased_paths_app in C. simpl in C.
        rewrite <- app_assoc in C.
        exists (targetPath f :: done), rest. simpl.
        repeat split; auto. congruence.
Qed.

(** What the rollback of src/index.ts erases: when a conversion fails with
    rollback enabled and the handler completes, the targets erased are the
    non-empty target paths of all the configured mappings, in mapping
    order, whether or not they were written; and the loop stops. *)
Theorem rollback_visits_every_mapping
  (field : CurrencyFieldConfig) (fromCurrency : string)
  (conversionDate : float) (e : JsError) (s s' : St) (flow : Flow) :
  rollbackOnError opts = true ->
  onFailure opts field fromCurrency conversionDate e s = (Ok flow, s') ->
  flow = Break
  /\ erased_paths (log s')
     = (erased_paths (log s) ++ rollback_targets (fields opts))%list.
Proof.
  intros Hrb H. unfold onFailure, bind in H. rewrite Hrb in H.
  pose proof (neutral_report field fromCurrency conversionDate e s)
    as (_ & _ & C1).
  destruct (report opts field fromCurrency conversionDate e s)
    as [[[] | e1] s1]; [| discriminate]. simpl in C1.
  destruct (rollback (fields opts) s1) as [[[] | e2] s2] eqn:Hr;
    [| discriminate].
  injection H as <- <-.
  destruct (rollback_paths _ _ _ _ Hr) as (done & rest & E & C & D).
  rewrite (D eq_refl), app_nil_r in E. split; congruence.
Qed.

(** *** The rollback of the second copy of index.ts *)

Lemma onFailure_part000_paths (field : CurrencyFieldConfig)
  (fromCurrency : string) (conversionDate : float) (e : JsError)
  (s s' : St) (r : Outcome Flow) :
  consistent s ->
  onFailure_part000 opts field fromCurrency conversionDate e s = (r, s') ->
  match r with
  | Ok Continue => consistent s'
  | Ok Break => erased_paths (log s') = written_paths (log s')
  | Throws _ => erased_among_written s'
  end.
Proof.
  intros Hc H. unfold onFailure_part000, bind in H.
  pose proof (neutral_report field fromCurrency conversionDate e s) as H1.
  destruct (report opts field fromCurrency conversionDate e s)
    as [[[] | e1] s1]; simpl in H1.
  2: { injection H as <- <-.
       destruct (same_paths_consistent _ _ H1 Hc) as (A & B).
       exists (written_paths (log s1)). now rewrite B. }
  pose proof (same_paths_consistent _ _ H1 Hc) as (A & B).
  destruct (rollbackOnError opts).
  - destruct (rollbackConverted (convertedFields s1) s1) as [[[] | e2] s2]
      eqn:Hr;
      destruct (rollbackConverted_paths _ _ _ _ Hr)
        as (done & rest & E & A2 & B2 & C2 & D2);
      injection H as <- <-; rewrite B in C2; simpl in C2.
    + rewrite (D2 eq_refl), app_nil_r in E. congruence.
    + exists rest. congruence.
  - injection H as <- <-. now split.
Qed.

Lemma iteration_part000_paths (field : CurrencyFieldConfig) (s s' : St)
  (r : Outcome Flow) :
  consistent s ->
  iteration_part000 rt opts field s = (r, s') ->
  match r with
  | Ok Continue => consistent s'
  | Ok Break => erased_paths (log s') = written_paths (log s')
  | Throws _ => erased_among_written s'
  end.
Proof.
  intros Hc H. unfold iteration_part000, bind at 1, readDoc in H.
  assert (Hskip : forall s0 : St, consistent s0 ->
            (Ok Continue, s0) = (r, s') -> match r with
            | Ok Continue => consistent s'
            | Ok Break => erased_paths (log s') = written_paths (log s')
            | Throws _ => erased_among_written s'
            end).
  { intros s0 H0 E. injection E as <- <-. exact H0. }
  destruct (is_nullish _); [now apply (Hskip s) |].
  destruct (getNestedValue (doc s) (PathString (currencyPath field)))
    as [| | b | x | code | c props | elems props];
    try (now apply (Hskip s)).
  destruct (code =? ""); [now apply (Hskip s) |].
  unfold checkCodes in H.
  assert (Hwarn : forall msg,
            bind (emit (W := W) (Warn msg)) (fun _ => ret Continue) s
            = (r, s') ->
            match r with
            | Ok Continue => consistent s'
            | Ok Break => erased_paths (log s') = written_paths (log s')
            | Throws _ => erased_among_written s'
            end).
  { intros msg E. unfold bind, emit, ret in E. injection E as <- <-.
    eapply same_paths_consistent; [| exact Hc].
    apply (neutral_emit (Warn msg)); reflexivity. }
  destruct (negb (isValidCurrencyCode (VStr code) _));
    [now apply Hwarn in H |].
  destruct (negb (isValidCurrencyCode (VStr (toCurrency field)) _));
    [now apply Hwarn in H |].
  unfold convertGuarded_part000, bind at 1 in H.
  pose proof (neutral_resolveDate field s) as H1.
  destruct (resolveDate rt opts field s) as [[t | e1] s1]; simpl in H1.
  2: { injection H as <- <-.
       destruct (same_paths_consistent _ _ H1 Hc) as (A & B).
       exists (written_paths (log s1)). now rewrite B. }
  pose proof (same_paths_consistent _ _ H1 Hc) as Hc1.
  unfold bind at 1 in H.
  pose proof (neutral_makeCacheKey code (toCurrency field) t s1) as H2.
  destruct (makeCacheKey rt code (toCurrency field) t s1)
    as [[key | e2] s2]; simpl in H2.
  2: { injection H as <- <-.
       destruct (same_paths_consistent _ _ H2 Hc1) as (A & B).
       exists (written_paths (log s2)). now rewrite B. }
  pose proof (same_paths_consistent _ _ H2 Hc1) as Hc2.
  unfold tryCatch, bind at 1 in H.
  destruct (convert rt opts field _ code t key s2)
    as [[[] | e3] s3] eqn:Hconv;
    pose proof (convert_paths _ _ _ _ _ _ _ _ Hconv) as Hp; simpl in Hp.
  - unfold ret in H. injection H as <- <-.
    destruct Hp as (A & B & C), Hc2 as (D & E). split; congruence.
  - eapply onFailure_part000_paths; [| exact H].
    eapply same_paths_consistent; eauto.
Qed.

Lemma forEachField_part000_paths (fs : list CurrencyFieldConfig) :
  forall (s s' : St) (r : Outcome unit),
    consistent s ->
    forEachField (iteration_part000 rt opts) fs s = (r, s') ->
    erased_among_written s'
    /\ (r = Ok tt ->
        erased_paths (log s') = []
        \/ erased_paths (log s') = written_paths (log s')).
Proof.
  induction fs as [| f rest IH]; intros s s' r Hc H; simpl in H.
  - injection H as <- <-. destruct Hc as (A & B). split.
    + exists (written_paths (log s)). now rewrite B.
    + auto.
  - unfold bind in H.
    destruct (iteration_part000 rt opts f s) as [[[] | e] s1] eqn:Hit;
      pose proof (iteration_part000_paths _ _ _ _ Hc Hit) as Hp;
      simpl in Hp.
    + eapply IH; eauto.
    + injection H as <- <-. split; [| auto].
      exists []. now rewrite app_nil_r.
    + injection H as <- <-. split; [exact Hp | discriminate].
Qed.

(** The second copy of index.ts rolls back exactly what it wrote: in every
    invocation the targets erased are, in order, the first of the targets
    written in that invocation, and when the invocation completes they are
    either none (no rollback took place) or all of them. *)
Theorem part000_rollback_erases_what_was_written (d : JsValue) (w : W) :
  let run := applyCurrencyConversion_part000 rt opts d w in
  erased_among_written (snd run)
  /\ (fst run = Ok tt ->
      erased_paths (log (snd run)) = []
      \/ erased_paths (log (snd run)) = written_paths (log (snd run))).
Proof.
  cbv zeta. unfold applyCurrencyConversion_part000.
  destruct (forEachField (iteration_part000 rt opts) (fields opts)
              (initial d w)) as [r s'] eqn:H.
  eapply forEachField_part000_paths; [| exact H].
  split; reflexivity.
Qed.

End Properties.

(** *** Set-up *)

Lemma fields_rejected_iff (A : Type) (fields : OptionValue (list A)) :
  fields_rejected fields = true <-> fields_unusable fields.
Proof.
  destruct fields as [l | v]; simpl.
  - destruct l; split; intros H; congruence.
  - destruct v as [| | b | x | str | c props | elems props]; simpl;
      try (split; [intros _; now left | reflexivity]).
    + destruct b; simpl; split; auto.
    + rewrite orb_true_r. split; auto.
    + rewrite orb_true_r. split; auto.
    + destruct elems as [| h t]; split; intros H; try reflexivity.
      * right. now exists props.
      * discriminate.
      * destruct H as [H | (ps & H)]; discriminate.
Qed.

(** C9: the set-up checks run in [currencyConversionPlugin] itself: with a
    field-mapping option that is missing, not a sequence or empty the call
    throws the "fields" error, and with usable mappings but a rate resolver
    that is not a function it throws the "getRate" error; in both cases no
    hook is registered, so no record is ever processed.  Otherwise the
    three hooks are registered. *)
Theorem setup_rejects_unusable_options (A B : Type)
  (fields : OptionValue (list A)) (getRate : OptionValue B) :
  (fields_unusable fields ->
   currencyConversionPlugin fields getRate
   = Throws (ErrorMsg fields_message))
  /\ (~ fields_unusable fields -> not_invocable getRate ->
      currencyConversionPlugin fields getRate
      = Throws (ErrorMsg getRate_message))
  /\ (~ fields_unusable fields -> ~ not_invocable getRate ->
      currencyConversionPlugin fields getRate
      = Ok ["save"; "findOneAndUpdate"; "updateOne"])
  /\ currencyConversionPlugin (A := A) (Untyped VUndefined) getRate
     = Throws (ErrorMsg fields_message)
  /\ currencyConversionPlugin (A := A) (Untyped (VStr "not-an-array"))
       getRate
     = Throws (ErrorMsg fields_message).
Proof.
  unfold currencyConversionPlugin.
  pose proof (fields_rejected_iff A fields) as Hf.
  repeat split; try reflexivity.
  - intros H. apply Hf in H. now rewrite H.
  - intros H Hg. destruct (fields_rejected fields).
    + exfalso. apply H, Hf. reflexivity.
    + destruct getRate; simpl in *; [contradiction | reflexivity].
  - intros H Hg. destruct (fields_rejected fields).
    + exfalso. apply H, Hf. reflexivity.
    + destruct getRate; simpl in *; [reflexivity | exfalso; auto].
Qed.

(** *** The pipeline on examples *)

(** C1, at a failing input.  Three mappings, rollback enabled: the first is
    skipped because its source is absent, the second fails in the resolver,
    the third is never reached.  Nothing was written, yet the rollback
    erases the three targets: the values that [kept] (skipped mapping) and
    [later] (mapping not yet processed) held before the call are gone.  The
    other copy of index.ts, which rolls back [convertedFields], erases
    nothing on the same input. *)
Theorem rollback_erases_targets_never_written :
  let run :=
    applyCurrencyConversion host
      (withRollback (options threeMappings failingRate))
      recordWithEarlierValues world0 in
  let other :=
    applyCurrencyConversion_part000 host
      (withRollback (options threeMappings failingRate))
      recordWithEarlierValues world0 in
  fst run = Ok tt
  /\ written_paths (log (snd run)) = []
  /\ erased_paths (log (snd run)) = ["kept"; "result"; "later"]
  /\ getNestedValue recordWithEarlierValues (PathString "kept") = VNum 5
  /\ getNestedValue (doc (snd run)) (PathString "kept") = VUndefined
  /\ getNestedValue recordWithEarlierValues (PathString "later") = VNum 7
  /\ getNestedValue (doc (snd run)) (PathString "later") = VUndefined
  /\ erased_paths (log (snd other)) = []
  /\ doc (snd other) = recordWithEarlierValues.
Proof. vm_compute. repeat split; reflexivity. Qed.

(** C8, at a failing input.  One mapping whose target runs through a
    number held in an array, a resolver that rejects, rollback enabled: the
    rejection is caught and reported, but the rollback then erases the
    target, [setNestedValue] throws inside the handler, and the invocation
    ends rejected with that TypeError.  The other copy of index.ts, which
    has nothing to roll back here, completes.  The same happens when the
    failing mapping is an ordinary one and the target through the array
    belongs to a later mapping, which the loop never reaches. *)
Theorem rollback_throw_rejects_the_invocation :
  let run :=
    applyCurrencyConversion host
      (withRollback (options [throughArray] failingRate))
      recordWithNumberInArray world0 in
  let other :=
    applyCurrencyConversion_part000 host
      (withRollback (options [throughArray] failingRate))
      recordWithNumberInArray world0 in
  let two :=
    applyCurrencyConversion host
      (withRollback (options [toResult; throughArray] failingRate))
      recordWithNumberInArray world0 in
  fst run = Throws TypeError
  /\ log (snd run)
     = [ GetRate "USD" "EUR" 1759276800000;
         ConsoleError (prefix ++ "Error converting price:")
           (Raised (VStr "rate error"));
         TargetErased "a.0.b.c" ]
  /\ fst other = Ok tt
  /\ fst two = Throws TypeError
  /\ erased_paths (log (snd two)) = ["result"; "a.0.b.c"].
Proof. vm_compute. repeat split; reflexivity. Qed.

(** C5, at the input of the claim: with a cache and a resolver that
    returns 0, the pipeline calls [cache.set] with 0, although 0 is not a
    finite, non-zero number that is not NaN. *)
Lemma zero_rate_is_written_to_the_cache :
  ~ (In (CacheSet keyUsdEur 0)
       (log (snd (applyCurrencyConversion host
                    (withCache (options [toResult]
                                  (constantRate (Some 0%float))))
                    (priced (VNum 10) []) world0)))
     <-> Number_isFinite 0 = true /\ is_zero 0 = false
         /\ Number_isNaN 0 = false).
Proof.
  intros [H _].
  assert (E : is_zero 0 = false).
  { apply H. vm_compute. right. right. now left. }
  vm_compute in E. discriminate.
Qed.

Ltac reaches_by_evaluation :=
  unfold reaches_rate_step, passes_guards;
  repeat split; try reflexivity; try discriminate.

(** Scenario E of the specification: the resolver returns NaN, the
    fallback rate is 2 and the amount 10; the result amount is 20. *)
Lemma fallback_for_returned_rate_only_witness :
  getNestedValue
    (doc (snd (iteration host
                 (withFallback 2
                    (options [toResult] (constantRate (Some nan))))
                 toResult (initial (priced (VNum 10) []) world0))))
    (PathString "result.amount")
  = VNum 20.
Proof.
  destruct (fallback_for_returned_rate_only World host
              (withFallback 2 (options [toResult] (constantRate (Some nan))))
              toResult
              (initial (priced (VNum 10) []) world0)
              (initial (priced (VNum 10) []) world0)
              (VNum 10) "USD" 1759276800000%float 2%float)
    as [Hreturned _].
  - reaches_by_evaluation.
  - reflexivity.
  - cbv zeta in Hreturned.
    erewrite (Hreturned (Some nan) world0 (counted world0) (counted world0));
      [| reflexivity ..].
    reflexivity.
Defined.

(** The cache test of the suite: the resolver returns 3 after a miss and
    the rate is written under the key of the day. *)
Lemma cache_populated_unless_undefined_or_NaN_witness :
  exists evs,
    log (snd (iteration host
                (withCache (options [toResult] (constantRate (Some 3%float))))
                toResult (initial (priced (VNum 10) []) world0)))
    = ([] ++ evs)%list
    /\ In (CacheSet keyUsdEur 3) evs.
Proof.
  destruct (cache_populated_unless_undefined_or_NaN World host
              (withCache (options [toResult] (constantRate (Some 3%float))))
              toResult
              (initial (priced (VNum 10) []) world0)
              (initial (priced (VNum 10) []) world0)
              (VNum 10) "USD" 1759276800000%float
              simpleCache world0 (counted world0) (Some 3%float))
    as (evs & E & H).
  - reaches_by_evaluation.
  - reflexivity.
  - reflexivity.
  - reflexivity.
  - exists evs. split; [exact E |].
    apply H. repeat split; reflexivity.
Defined.


(** The tests of the suite for the set-up: an empty array, and
    [getRate: 123] with the mappings [[{}]]. *)
Lemma setup_rejects_unusable_options_witness :
  currencyConversionPlugin (B := unit) (Typed ([] : list CurrencyFieldConfig))
    (Typed tt)
  = Throws (ErrorMsg fields_message)
  /\ currencyConversionPlugin (A := CurrencyFieldConfig) (B := unit)
       (Untyped (VArr [VObj PlainObject []] []))
       (Untyped (VNum 123))
     = Throws (ErrorMsg getRate_message).
Proof.
  split.
  - apply (proj1 (setup_rejects_unusable_options _ _ _ _)). reflexivity.
  - apply (proj1 (proj2 (setup_rejects_unusable_options _ _ _ _))).
    + intros [H | (props & H)]; discriminate.
    + exact I.
Defined.


(** The rollback test of the suite on the second copy: the first target is
    written, the second conversion fails, and exactly the first target is
    erased. *)
Lemma part000_rollback_erases_what_was_written_witness :
  erased_paths
    (log (snd (applyCurrencyConversion_part000 host
                 (withRollback
                    (options [toResult;
                              mapping "price" "currency" "result2" "GBP"]
                       failingForGBP))
                 (priced (VNum 10) []) world0)))
  = ["result"].
Proof.
  destruct (part000_rollback_erases_what_was_written World host
              (withRollback
                 (options [toResult;
                           mapping "price" "currency" "result2" "GBP"]
                    failingForGBP))
              (priced (VNum 10) []) world0) as [_ H].
  destruct (H eq_refl) as [E | E]; [| rewrite E; reflexivity].
  vm_compute in E. discriminate.
Defined.

(** The rollback test of the suite on src/index.ts: both targets are
    erased. *)
Lemma rollback_visits_every_mapping_witness :
  erased_paths
    (log (snd (onFailure
                 (withRollback
                    (options [toResult;
                              mapping "price" "currency" "result2" "GBP"]
                       failingForGBP))
                 toResult "USD" 1759276800000%float
                 (Raised (VStr "fail GBP"))
                 (initial (priced (VNum 10) []) world0))))
  = ["result"; "result2"].
Proof.
  apply (rollback_visits_every_mapping World
           (withRollback
              (options [toResult;
                        mapping "price" "currency" "result2" "GBP"]
                 failingForGBP))
           toResult "USD" 1759276800000%float (Raised (VStr "fail GBP"))
           (initial (priced (VNum 10) []) world0) _ Break);
    reflexivity.
Defined.

End PluginSpec.

(* ------------------------------------------------------------------------- *)
(** ** More on the accessors *)

Module AccessorSpec.

(** *** Splitting and joining *)

Lemma split_dots_cons (path : string) :
  exists seg more, split_dots path = seg :: more.
Proof.
  destruct path as [| c rest]; simpl; eauto.
  destruct (Ascii.eqb c "."); eauto.
  destruct (split_dots rest); eauto.
Qed.

Lemma join_split (path : string) : join_dots (split_dots path) = path.
Proof.
  induction path as [| c rest IH]; simpl; auto.
  destruct (Ascii.eqb c ".") eqn:E.
  - apply Ascii.eqb_eq in E. subst c.
    destruct (split_dots_cons rest) as (seg & more & Hs).
    rewrite Hs in *. simpl. simpl in IH. now rewrite IH.
  - destruct (split_dots_cons rest) as (seg & more & Hs).
    rewrite Hs in *. destruct more; simpl in *; now rewrite IH.
Qed.

Lemma split_dots_dot_free (path : string) :
  Forall (fun seg => has_dot seg = false) (split_dots path).
Proof.
  induction path as [| c rest IH]; simpl.
  - repeat constructor.
  - destruct (Ascii.eqb c ".") eqn:E.
    + constructor; auto.
    + destruct (split_dots rest) as [| seg more].
      * repeat constructor. simpl. now rewrite E.
      * inversion IH as [| ? ? Hseg Hmore]; subst.
        constructor; auto. simpl. now rewrite E, Hseg.
Qed.

Lemma split_dot_free (seg : string) :
  has_dot seg = false -> split_dots seg = [seg].
Proof.
  induction seg as [| c rest IH]; simpl; auto.
  intros H. apply orb_false_iff in H as [Hc Hr].
  rewrite Hc, (IH Hr). reflexivity.
Qed.

Lemma split_dots_append (p q : string) :
  split_dots (p ++ "." ++ q) = (split_dots p ++ split_dots q)%list.
Proof.
  change ("." ++ q) with (String "."%char q).
  induction p as [| c rest IH]; simpl; auto.
  destruct (Ascii.eqb c "."); simpl; rewrite IH; [reflexivity |].
  destruct (split_dots_cons rest) as (seg & more & Hs).
  now rewrite Hs.
Qed.

Lemma split_join (segments : list string) :
  segments <> [] ->
  Forall (fun seg => has_dot seg = false) segments ->
  split_dots (join_dots segments) = segments.
Proof.
  induction segments as [| seg rest IH]; intros Hne Hf; [congruence |].
  inversion Hf as [| ? ? Hseg Hrest]; subst.
  destruct rest as [| seg' rest'].
  - simpl. now apply split_dot_free.
  - change (join_dots (seg :: seg' :: rest'))
      with (seg ++ "." ++ join_dots (seg' :: rest')).
    rewrite split_dots_append, IH by (auto; congruence).
    now rewrite (split_dot_free _ Hseg).
Qed.

(** [getPathArray] and [join] are inverse of each other: the segments of a
    path never contain a dot and are never an empty list, joining them with
    dots gives the path back, and splitting the join of dot-free segments
    gives the segments back. *)
Theorem getPathArray_join_roundtrip :
  (forall path : string,
      getPathArray path <> []
      /\ Forall (fun seg => has_dot seg = false) (getPathArray path)
      /\ join_dots (getPathArray path) = path)
  /\ (forall segments : list string,
        segments <> [] ->
        Forall (fun seg => has_dot seg = false) segments ->
        getPathArray (join_dots segments) = segments).
Proof.
  split.
  - intros path. unfold getPathArray. repeat split.
    + destruct (split_dots_cons path) as (seg & more & ->). congruence.
    + apply split_dots_dot_free.
    + apply join_split.
  - intros segments. apply split_join.
Qed.

(** *** The memo table *)

Lemma PathCache_get_set_same (path : string) (arr : list string)
  (m : PathCache) : PathCache_get path (PathCache_set path arr m) = Some arr.
Proof.
  induction m as [| [k old] rest IH]; simpl.
  - now rewrite String.eqb_refl.
  - destruct (k =? path) eqn:E; simpl; rewrite E; auto.
Qed.

Lemma PathCache_get_set_other (path other : string) (arr : list string)
  (m : PathCache) :
  path <> other ->
  PathCache_get other (PathCache_set path arr m) = PathCache_get other m.
Proof.
  intros Hne. induction m as [| [k old] rest IH]; simpl.
  - destruct (path =? other) eqn:E; auto.
    apply String.eqb_eq in E. contradiction.
  - destruct (k =? path) eqn:E; simpl.
    + apply String.eqb_eq in E. subst k.
      destruct (path =? other) eqn:E'; auto.
      apply String.eqb_eq in E'. contradiction.
    + now rewrite IH.
Qed.

(** The memo table is transparent: starting from the empty table, whatever
    paths have been asked before, [getPathArray] returns the split of its
    argument, and the table again holds only splits of its keys. *)
Theorem getPathArray_memo_is_transparent
  (pathCache : PathCache) (path : string) :
  coherent pathCache ->
  fst (getPathArray_memo pathCache path) = getPathArray path
  /\ coherent (snd (getPathArray_memo pathCache path))
  /\ fst (getPathArray_memo (snd (getPathArray_memo pathCache path)) path)
     = getPathArray path.
Proof.
  intros Hc. unfold getPathArray_memo, getPathArray.
  destruct (PathCache_get path pathCache) as [cached |] eqn:E; simpl.
  - rewrite E. simpl. repeat split; auto.
  - rewrite PathCache_get_set_same. simpl. repeat split; auto.
    intros other arr H.
    destruct (String.eqb_spec path other) as [<- | Hne].
    + rewrite PathCache_get_set_same in H. congruence.
    + rewrite PathCache_get_set_other in H by auto. now apply Hc.
Qed.

Lemma getPathArray_memo_is_transparent_witness :
  fst (getPathArray_memo
         (snd (getPathArray_memo [] "price.amount")) "price.amount")
  = ["price"; "amount"].
Proof.
  assert (H0 : coherent []) by (intros path arr H; discriminate H).
  destruct (getPathArray_memo_is_transparent [] "price.amount" H0)
    as (_ & H1 & _).
  exact (proj1 (getPathArray_memo_is_transparent _ "price.amount" H1)).
Defined.

(** *** Reading *)

Lemma get_step_non_object (v : JsValue) (key : string) :
  truthy v && is_typeof_object v = false -> get_step v key = VUndefined.
Proof. intros H. unfold get_step. now rewrite H. Qed.

Lemma fold_get_step_undefined (keys : list string) :
  fold_left get_step keys VUndefined = VUndefined.
Proof. induction keys as [| k rest IH]; simpl; auto. Qed.

Lemma getNestedValue_append (obj : JsValue) (p q : string) :
  getNestedValue obj (PathString (p ++ "." ++ q))
  = getNestedValue (getNestedValue obj (PathString p)) (PathString q).
Proof.
  unfold getNestedValue, path_keys, getPathArray.
  now rewrite split_dots_append, fold_left_app.
Qed.

(** Reading composes along the dots, and stops at the first value that is
    not an object: the value at "p.q" is the value at "q" of the value at
    "p", and it is [undefined] as soon as the value at "p" is a primitive,
    [null] or [undefined], however long "q" is. *)
Theorem getNestedValue_composes (obj : JsValue) (p q : string) :
  getNestedValue obj (PathString (p ++ "." ++ q))
  = getNestedValue (getNestedValue obj (PathString p)) (PathString q)
  /\ (truthy (getNestedValue obj (PathString p))
      && is_typeof_object (getNestedValue obj (PathString p)) = false ->
      getNestedValue obj (PathString (p ++ "." ++ q)) = VUndefined).
Proof.
  pose proof (getNestedValue_append obj p q) as H.
  split; [exact H |].
  intros Hno. rewrite H. unfold getNestedValue, path_keys, getPathArray.
  destruct (split_dots_cons q) as (seg & more & ->). simpl.
  rewrite (get_step_non_object _ _ Hno). apply fold_get_step_undefined.
Qed.

(** *** Writing *)

Lemma lookup_store_other (key key' : string) (v : JsValue)
  (props : list (string * JsValue)) :
  key <> key' -> lookup key' (store key v props) = lookup key' props.
Proof.
  intros Hne. induction props as [| [k w] rest IH]; simpl.
  - destruct (key =? key') eqn:E; auto.
    apply String.eqb_eq in E. contradiction.
  - destruct (k =? key) eqn:E; simpl.
    + apply String.eqb_eq in E. subst k.
      destruct (key =? key') eqn:E'; auto.
      apply String.eqb_eq in E'. contradiction.
    + now rewrite IH.
Qed.

(** A path without a usable last segment (the empty path, a path that
    ends with a dot, an empty array of segments) makes [setNestedValue] a
    no-op: the record is unchanged and nothing is thrown, whatever the
    record is. *)
Theorem setNestedValue_without_last_segment
  (obj : JsValue) (path : Path) (value : JsValue) :
  last_segment path = "" ->
  setNestedValue obj path value = (obj, None).
Proof.
  unfold setNestedValue, last_segment. intros H.
  destruct (pop (path_keys path)) as [[parts last] |] eqn:Hp; auto.
  rewrite (HelpersSpec.pop_last _ _ _ Hp) in H. subst last. reflexivity.
Qed.

Lemma setNestedValue_without_last_segment_witness :
  setNestedValue (VObj PlainObject []) (PathString "a.") (VNum 1)
  = (VObj PlainObject [], None).
Proof.
  apply setNestedValue_without_last_segment. reflexivity.
Defined.

Lemma set_last_container (target value : JsValue) (last : string) :
  is_container target = true ->
  exists target',
    set_last target last value = (target', None)
    /\ is_container target' = true.
Proof.
  intros H. unfold set_last.
  destruct target; try discriminate; simpl;
    destruct (Number_of_key last); simpl; eauto.
Qed.

(** Along segments that are names the walk never leaves the containers. *)
Lemma set_walk_names (parts : list string) (last : string)
  (value : JsValue) :
  Forall (fun key => is_name key = true) parts ->
  forall target,
    is_container target = true ->
    exists target',
      set_walk target parts last value = (target', None)
      /\ is_container target' = true.
Proof.
  induction parts as [| key rest IH]; intros Hn target Hc.
  - now apply set_last_container.
  - inversion Hn as [| ? ? Hkey Hrest]; subst.
    unfold is_name in Hkey. simpl.
    destruct (Number_of_key key); [discriminate |].
    assert (Hin : forall cur, is_container cur = true ->
              exists target',
                (let '(child, e) := set_walk cur rest last value in
                 (fst (set_prop target key child), e)) = (target', None)
                /\ is_container target' = true).
    { intros cur Hcur. destruct (IH Hrest cur Hcur) as (child & -> & _).
      destruct target; try discriminate; simpl; eauto. }
    destruct target; try discriminate; cbv zeta;
      match goal with
      | |- context [negb (is_typeof_object ?c) || is_nullish ?c] =>
          destruct (negb (is_typeof_object c) || is_nullish c) eqn:Hcur
      end;
      try (simpl set_prop; cbv iota beta; apply (Hin (VObj PlainObject []));
           reflexivity);
      apply Hin; apply orb_false_iff in Hcur as [H1 H2];
      apply negb_false_iff in H1;
      match goal with
      | |- is_container ?c = true => destruct c; try discriminate; reflexivity
      end.
Qed.



(** On an object, the walk only assigns the property named by the first
    segment. *)
Lemma set_walk_object_frame (parts : list string) (last : string)
  (value : JsValue) (c : ObjectClass) (props : list (string * JsValue)) :
  exists props',
    fst (set_walk (VObj c props) parts last value) = VObj c props'
    /\ forall other,
        hd last parts <> other -> lookup other props' = lookup other props.
Proof.
  destruct parts as [| key rest]; simpl in *.
  - unfold set_last. simpl.
    destruct (Number_of_key last); simpl;
      eexists; split; eauto using lookup_store_other.
  - assert (Hin : forall cur,
              exists props',
                fst (let '(child, e) := set_walk cur rest last value in
                     (fst (set_prop (VObj c props) key child), e))
                = VObj c props'
                /\ forall other,
                    key <> other ->
                    lookup other props' = lookup other props).
    { intros cur. destruct (set_walk cur rest last value) as [child e].
      simpl. eexists. split; eauto using lookup_store_other. }
    destruct (negb (is_typeof_object (lookup key props))
              || is_nullish (lookup key props));
      destruct (Number_of_key key); simpl; apply Hin.
Qed.

(** The same for [setNestedValue]: the result is an object of the same
    class that agrees with the record on every other property. *)
Lemma setNestedValue_object_frame (c : ObjectClass)
  (props : list (string * JsValue)) (path : Path) (value : JsValue) :
  exists props',
    fst (setNestedValue (VObj c props) path value) = VObj c props'
    /\ forall other,
        first_segment path <> other ->
        lookup other props' = lookup other props.
Proof.
  unfold setNestedValue, first_segment.
  destruct (pop (path_keys path)) as [[parts last] |] eqn:Hp;
    [| exists props; auto].
  destruct (last =? ""); [exists props; auto |].
  rewrite (HelpersSpec.pop_app _ _ _ Hp).
  destruct (set_walk_object_frame parts last value c props)
    as (props' & E & H).
  exists props'. split; auto.
  intros other Hne. apply H. destruct parts; simpl in *; auto.
Qed.



End AccessorSpec.

(* ------------------------------------------------------------------------- *)
(** ** Properties of [SimpleCache] *)

Module CacheSpec.

Section Properties.

Variable T : Type.

Local Abbreviation entries := (list (string * Cache.CacheEntry T)).

Lemma Map_get_set_same (key : string) (e : Cache.CacheEntry T)
  (m : entries) : Cache.Map_get key (Cache.Map_set key e m) = Some e.
Proof.
  induction m as [| [k e0] rest IH]; simpl.
  - now rewrite String.eqb_refl.
  - destruct (k =? key) eqn:E; simpl; rewrite E; auto.
Qed.

Lemma Map_get_set_other (key other : string) (e : Cache.CacheEntry T)
  (m : entries) :
  key <> other ->
  Cache.Map_get other (Cache.Map_set key e m) = Cache.Map_get other m.
Proof.
  intros Hne. induction m as [| [k e0] rest IH]; simpl.
  - destruct (key =? other) eqn:E; auto.
    apply String.eqb_eq in E. contradiction.
  - destruct (k =? key) eqn:E; simpl.
    + apply String.eqb_eq in E. subst k.
      destruct (key =? other) eqn:E'; auto.
      apply String.eqb_eq in E'. contradiction.
    + now rewrite IH.
Qed.

Lemma Map_get_delete_other (key other : string) (m : entries) :
  key <> other ->
  Cache.Map_get other (Cache.Map_delete key m) = Cache.Map_get other m.
Proof.
  intros Hne. induction m as [| [k e0] rest IH]; simpl; auto.
  destruct (k =? key) eqn:E; simpl.
  - apply String.eqb_eq in E. subst k.
    destruct (key =? other) eqn:E'; auto.
    apply String.eqb_eq in E'. contradiction.
  - now rewrite IH.
Qed.

Lemma Map_get_absent (key : string) (m : entries) :
  ~ In key (map fst m) -> Cache.Map_get key m = None.
Proof.
  induction m as [| [k e0] rest IH]; simpl; auto.
  intros H. destruct (k =? key) eqn:E.
  - apply String.eqb_eq in E. tauto.
  - apply IH. tauto.
Qed.

Lemma Map_delete_keys (key other : string) (m : entries) :
  In other (map fst (Cache.Map_delete key m)) -> In other (map fst m).
Proof.
  induction m as [| [k e0] rest IH]; simpl; auto.
  destruct (k =? key); simpl; tauto.
Qed.

Lemma Map_get_delete_same (key : string) (m : entries) :
  NoDup (map fst m) -> Cache.Map_get key (Cache.Map_delete key m) = None.
Proof.
  induction m as [| [k e0] rest IH]; simpl; auto.
  intros Hnd. inversion Hnd as [| ? ? Hk Hrest]; subst.
  destruct (k =? key) eqn:E; simpl.
  - apply String.eqb_eq in E. subst k. now apply Map_get_absent.
  - rewrite E. auto.
Qed.

Lemma Map_delete_NoDup (key : string) (m : entries) :
  NoDup (map fst m) -> NoDup (map fst (Cache.Map_delete key m)).
Proof.
  induction m as [| [k e0] rest IH]; simpl; auto.
  intros Hnd. inversion Hnd as [| ? ? Hk Hrest]; subst.
  destruct (k =? key); simpl; auto.
  constructor; auto. intros Hin. apply Hk. eapply Map_delete_keys; eauto.
Qed.

Lemma Map_set_keys (key other : string) (e : Cache.CacheEntry T)
  (m : entries) :
  In other (map fst (Cache.Map_set key e m)) ->
  other = key \/ In other (map fst m).
Proof.
  induction m as [| [k e0] rest IH]; simpl.
  - intros [H | []]. now left.
  - destruct (k =? key); simpl; intros [H | H]; auto.
    destruct (IH H); auto.
Qed.

Lemma Map_set_NoDup (key : string) (e : Cache.CacheEntry T) (m : entries) :
  NoDup (map fst m) -> NoDup (map fst (Cache.Map_set key e m)).
Proof.
  induction m as [| [k e0] rest IH]; simpl.
  - intros _. repeat constructor. auto.
  - intros Hnd. inversion Hnd as [| ? ? Hk Hrest]; subst.
    destruct (k =? key) eqn:E; simpl.
    + constructor; auto.
    + constructor; auto. intros Hin.
      destruct (Map_set_keys _ _ _ _ Hin) as [-> | H]; auto.
      now rewrite String.eqb_refl in E.
Qed.

(** The [Map] of a cache never holds a key twice. *)
Lemma reachable_unique_keys (c : Cache.SimpleCache T) :
  Cache.reachable c -> NoDup (map fst (Cache.store c)).
Proof.
  induction 1 as [ttl | now key c Hc IH | now key v c Hc IH
                 | key c Hc IH | c Hc IH]; simpl.
  - constructor.
  - unfold Cache.get. destruct (Cache.Map_get key (Cache.store c)); auto.
    destruct (Cache.isExpired now c0); simpl; auto.
    now apply Map_delete_NoDup.
  - now apply Map_set_NoDup.
  - now apply Map_delete_NoDup.
  - constructor.
Qed.

Lemma get_set_fresh (c : Cache.SimpleCache T) (key : string) (v : T)
  (now later : float) :
  PrimFloat.ltb (now + Cache.ttl c)%float later = false ->
  Cache.get later key (Cache.set now key v c)
  = (Some v, Cache.set now key v c).
Proof.
  intros H. unfold Cache.get, Cache.set. simpl.
  rewrite Map_get_set_same. unfold Cache.isExpired. simpl. now rewrite H.
Qed.

(** An entry is served until its time to live has passed: a value set at
    time [now] is returned by every read at a time [later] that is not
    after [now + ttl], and such a read changes nothing in the cache; in
    particular it does not extend the life of the entry. *)
Theorem cache_hit_before_expiry (c : Cache.SimpleCache T) (key : string)
  (v : T) (now later : float) :
  PrimFloat.ltb (now + Cache.ttl c)%float later = false ->
  Cache.get later key (Cache.set now key v c)
  = (Some v, Cache.set now key v c).
Proof. apply get_set_fresh. Qed.

(** Expiry is lazy and final: the first read after [now + ttl] returns
    [undefined] and deletes the entry, so that every later read of the key
    returns [undefined] whatever the clock says, until the key is set
    again. *)
Theorem cache_expired_entry_is_removed (c : Cache.SimpleCache T)
  (key : string) (v : T) (now later : float) :
  Cache.reachable c ->
  PrimFloat.ltb (now + Cache.ttl c)%float later = true ->
  fst (Cache.get later key (Cache.set now key v c)) = None
  /\ forall t : float,
      fst (Cache.get t key
             (snd (Cache.get later key (Cache.set now key v c)))) = None.
Proof.
  intros Hr H.
  pose proof (reachable_unique_keys _ (Cache.reach_set T now key v c Hr))
    as Hnd.
  unfold Cache.get at 1 3. simpl Cache.store in *.
  rewrite Map_get_set_same. unfold Cache.isExpired. simpl. rewrite H.
  split; auto. intros t. unfold Cache.get. simpl.
  now rewrite Map_get_delete_same.
Qed.

(** [delete] and [clear] take effect at once: after [delete(key)] a read
    of [key], and after [clear()] a read of any key, returns [undefined] at
    any time. *)
Theorem cache_delete_and_clear (c : Cache.SimpleCache T) (key : string)
  (t : float) :
  Cache.reachable c ->
  fst (Cache.get t key (Cache.delete key c)) = None
  /\ fst (Cache.get t key (Cache.clear c)) = None.
Proof.
  intros Hr. pose proof (reachable_unique_keys _ Hr) as Hnd.
  unfold Cache.get, Cache.delete, Cache.clear. simpl.
  now rewrite Map_get_delete_same.
Qed.

(** Keys do not interfere: setting, deleting or reading (and thereby
    possibly expiring) one key never changes what a read of another key
    returns. *)
Theorem cache_keys_are_independent (c : Cache.SimpleCache T)
  (key other : string) (v : T) (now t : float) :
  key <> other ->
  fst (Cache.get t other (Cache.set now key v c))
  = fst (Cache.get t other c)
  /\ fst (Cache.get t other (Cache.delete key c))
     = fst (Cache.get t other c)
  /\ fst (Cache.get t other (snd (Cache.get now key c)))
     = fst (Cache.get t other c).
Proof.
  intros Hne.
  assert (Hread : forall c' : Cache.SimpleCache T,
            Cache.Map_get other (Cache.store c')
            = Cache.Map_get other (Cache.store c) ->
            fst (Cache.get t other c') = fst (Cache.get t other c)).
  { intros c' E. unfold Cache.get. rewrite E.
    destruct (Cache.Map_get other (Cache.store c)) as [e |]; auto.
    now destruct (Cache.isExpired t e). }
  repeat split; apply Hread; simpl.
  - now apply Map_get_set_other.
  - now apply Map_get_delete_other.
  - unfold Cache.get.
    destruct (Cache.Map_get key (Cache.store c)) as [e |]; auto.
    destruct (Cache.isExpired now e); simpl; auto.
    now apply Map_get_delete_other.
Qed.

End Properties.

Lemma cache_hit_before_expiry_witness :
  Cache.get 1759280400000 "USD_EUR_2025-10-01"
    (Cache.set 1759276800000 "USD_EUR_2025-10-01" 3%float (Cache.new 60))
  = (Some 3%float,
     Cache.set 1759276800000 "USD_EUR_2025-10-01" 3%float (Cache.new 60)).
Proof. apply cache_hit_before_expiry. reflexivity. Defined.

Lemma cache_expired_entry_is_removed_witness :
  fst (Cache.get 1759280400001 "USD_EUR_2025-10-01"
         (Cache.set 1759276800000 "USD_EUR_2025-10-01" 3%float
            (Cache.new 60))) = None.
Proof.
  apply (cache_expired_entry_is_removed float (Cache.new 60)).
  - constructor.
  - reflexivity.
Defined.

Lemma cache_delete_and_clear_witness :
  fst (Cache.get 0 "k"
         (Cache.delete "k" (Cache.set 0 "k" 3%float (Cache.new 60)))) = None.
Proof.
  apply (cache_delete_and_clear float
           (Cache.set 0 "k" 3%float (Cache.new 60)) "k" 0%float).
  repeat constructor.
Defined.

Lemma cache_keys_are_independent_witness :
  fst (Cache.get 0 "a" (Cache.set 0 "b" 3%float (Cache.new 60)))
  = fst (Cache.get 0 "a" (Cache.new (T := float) 60)).
Proof.
  refine (proj1 (cache_keys_are_independent float (Cache.new 60) "b" "a"
                   3%float 0%float 0%float _)).
  apply String.eqb_neq. reflexivity.
Defined.

End CacheSpec.

(* ------------------------------------------------------------------------- *)
(** ** More on [applyCurrencyConversion] *)

Module PipelineSpec.

Section Properties.

Variable W : Type.
Variable rt : Runtime W.
Variable opts : Options W.

Local Abbreviation St := (State W).

Lemma after_nothing (s : St) : after s (world s) [] = s.
Proof. destruct s. unfold after. simpl. now rewrite app_nil_r. Qed.

Lemma resolveDate_frame (field : CurrencyFieldConfig) (s s1 : St)
  (r : Outcome float) :
  resolveDate rt opts field s = (r, s1) ->
  doc s1 = doc s /\ convertedFields s1 = convertedFields s
  /\ log s1 = log s.
Proof.
  unfold resolveDate, bind, readDoc, ret, newDate, call. intros H.
  destruct (date_usable _).
  - destruct (dateTransform opts); injection H as <- <-; auto.
  - destruct (Date_now rt (world s)) as [t w].
    destruct (dateTransform opts); injection H as <- <-; auto.
Qed.

(** A conversion date that is not a valid date rejects the whole
    invocation: the cache key is built with [toISOString] before the [try]
    block, so the RangeError escapes.  The field has passed every guard;
    nothing is reported to the error sink, no collaborator but the clock
    has been called, the record is unchanged, and the remaining mappings
    are not processed. *)
Theorem invalid_date_rejects (field : CurrencyFieldConfig) (s s1 : St)
  (amount : JsValue) (fromCurrency : string) (conversionDate : float)
  (rest : list CurrencyFieldConfig) :
  passes_guards rt opts field s amount fromCurrency ->
  resolveDate rt opts field s = (Ok conversionDate, s1) ->
  Number_isNaN conversionDate = true ->
  iteration rt opts field s = (Throws RangeError, s1)
  /\ forEachField (iteration rt opts) (field :: rest) s
     = (Throws RangeError, s1)
  /\ doc s1 = doc s /\ log s1 = log s.
Proof.
  intros Hg Hd Hnan.
  assert (Hit : iteration rt opts field s = (Throws RangeError, s1)).
  { rewrite (PluginSpec.iteration_guarded W rt opts _ _ _ _ Hg).
    unfold convertGuarded, bind. rewrite Hd.
    unfold makeCacheKey. now rewrite Hnan. }
  destruct (resolveDate_frame _ _ _ _ Hd) as (A & _ & C).
  repeat split; auto.
  simpl. unfold bind. now rewrite Hit.
Qed.

(** A rate found in the cache is used as it is: the resolver is not
    called and the cache is not written; the only collaborator call of the
    iteration is the cache read. *)
Theorem cache_hit_skips_the_resolver (field : CurrencyFieldConfig)
  (s s1 : St) (amount : JsValue) (fromCurrency : string)
  (conversionDate x : float) (c : CurrencyRateCache W) (w1 : W)
  (d' : JsValue) :
  reaches_rate_step rt opts field s amount fromCurrency conversionDate s1 ->
  cache opts = Some c ->
  cache_get c (cacheKeyOf rt fromCurrency field conversionDate) (world s1)
  = (Ok (Some x), w1) ->
  rate_unusable (Some x) = false ->
  setNestedValue (doc s1) (PathString (targetPath field))
    (convertedValue rt opts field amount x conversionDate) = (d', None) ->
  iteration rt opts field s
  = (Ok Continue,
     written
       (after s1 w1
          [CacheGet (cacheKeyOf rt fromCurrency field conversionDate)])
       d' (targetPath field)
       (convertedValue rt opts field amount x conversionDate)).
Proof.
  intros Hreach Hc Hget Hu Hw.
  rewrite (PluginSpec.iteration_reaches_try W rt opts _ _ _ _ _ _ Hreach).
  apply PluginSpec.convert_with_rate with (r := Some x); auto.
  - unfold lookupRate, bind, emit, call, ret. rewrite Hc. simpl.
    rewrite Hget. reflexivity.
  - unfold checkRate. simpl in Hu. now rewrite Hu.
Qed.

(** With no fallback rate, a resolved rate that is undefined, zero or NaN
    is a failure of the field with the error "Invalid rate": it goes to
    the failure handler and nothing is written; with rollback disabled the
    handler only reports it and the loop goes on to the next mapping. *)
Theorem unusable_rate_without_fallback (field : CurrencyFieldConfig)
  (s s1 s2 : St) (amount : JsValue) (fromCurrency : string)
  (conversionDate : float) (rate : option float) :
  reaches_rate_step rt opts field s amount fromCurrency conversionDate s1 ->
  fallbackRate opts = None ->
  lookupRate opts field fromCurrency conversionDate
    (cacheKeyOf rt fromCurrency field conversionDate) s1 = (Ok rate, s2) ->
  rate_unusable rate = true ->
  iteration rt opts field s
  = onFailure opts field fromCurrency conversionDate
      (ErrorMsg "Invalid rate") s2
  /\ (rollbackOnError opts = false ->
      exists w,
        iteration rt opts field s
        = (Ok Continue,
           after s2 w
             [reported opts field fromCurrency conversionDate
                (ErrorMsg "Invalid rate")])).
Proof.
  intros Hreach Hfb Hl Hu.
  assert (Hit : iteration rt opts field s
                = onFailure opts field fromCurrency conversionDate
                    (ErrorMsg "Invalid rate") s2).
  { rewrite (PluginSpec.iteration_reaches_try W rt opts _ _ _ _ _ _ Hreach).
    unfold tryCatch, convert, bind. rewrite Hl.
    unfold checkRate. rewrite Hfb.
    destruct rate as [x |]; simpl in Hu; [rewrite Hu |]; reflexivity. }
  split; [exact Hit |].
  intros Hno. rewrite Hit. unfold onFailure, bind. rewrite Hno.
  destruct (PluginSpec.report_result W opts field fromCurrency
              conversionDate (ErrorMsg "Invalid rate") s2) as (w & ->).
  exists w. reflexivity.
Qed.

(** A field that does not pass the guards is skipped without touching
    anything: the iteration continues, the record, the collaborators and
    [convertedFields] are as before, and the trace gains at most one
    warning. *)
Theorem skipped_field_changes_nothing (field : CurrencyFieldConfig)
  (s : St) :
  (forall amount fromCurrency,
      ~ passes_guards rt opts field s amount fromCurrency) ->
  exists warnings,
    iteration rt opts field s = (Ok Continue, after s (world s) warnings)
    /\ List.length warnings <= 1
    /\ Forall is_warning warnings.
Proof.
  intros Hskip.
  assert (Hwarn : forall msg,
    exists warnings,
      bind (emit (W := W) (Warn msg)) (fun _ => ret Continue) s
      = (Ok Continue, after s (world s) warnings)
      /\ List.length warnings <= 1 /\ Forall is_warning warnings).
  { intros msg. exists [Warn msg]. repeat split; simpl; auto.
    repeat constructor. }
  assert (Hsilent :
    exists warnings,
      ret (W := W) Continue s = (Ok Continue, after s (world s) warnings)
      /\ List.length warnings <= 1 /\ Forall is_warning warnings).
  { exists []. rewrite after_nothing. repeat split; simpl; auto. }
  unfold iteration.
  destruct (targetPath field =? "") eqn:Et; [apply Hwarn |].
  destruct (schema_path rt (targetPath field ++ ".amount")) eqn:Es;
    [| apply Hwarn].
  cbn [negb]. unfold bind at 1, readDoc at 1.
  destruct (is_nullish (getNestedValue (doc s)
                          (PathString (sourcePath field)))) eqn:En;
    [apply Hsilent |].
  destruct (getNestedValue (doc s) (PathString (currencyPath field)))
    as [| | b | x | code | c props | elems props] eqn:Ec;
    try apply Hwarn.
  destruct (code =? "") eqn:Ecode; [apply Hwarn |].
  unfold checkCodes.
  destruct (isValidCurrencyCode (VStr code) (allowedCurrencyCodes opts))
    eqn:Ev1; [| apply Hwarn].
  destruct (isValidCurrencyCode (VStr (toCurrency field))
              (allowedCurrencyCodes opts)) eqn:Ev2; [| apply Hwarn].
  exfalso.
  apply (Hskip (getNestedValue (doc s) (PathString (sourcePath field)))
           code).
  unfold passes_guards. rewrite Ec.
  apply String.eqb_neq in Et. apply String.eqb_neq in Ecode.
  repeat split; auto.
Qed.

(** *** Records without anything to convert *)

Lemma iteration_absent (field : CurrencyFieldConfig) (s : St) :
  is_nullish (getNestedValue (doc s) (PathString (sourcePath field))) = true ->
  (exists warnings,
      iteration rt opts field s = (Ok Continue, after s (world s) warnings)
      /\ List.length warnings <= 1
      /\ Forall is_warning warnings)
  /\ iteration_part000 rt opts field s = (Ok Continue, s).
Proof.
  intros Habs. split.
  - unfold iteration.
    destruct (targetPath field =? "");
      [exists [Warn (prefix
                      ++ "WARNING: 'targetPath' is required in field config")];
       repeat split; simpl; auto; repeat constructor |].
    destruct (schema_path rt (targetPath field ++ ".amount")); cbn [negb];
      [| eexists [Warn _]; repeat split; simpl; auto; repeat constructor].
    unfold bind at 1, readDoc at 1. rewrite Habs.
    exists []. rewrite after_nothing. repeat split; simpl; auto.
  - unfold iteration_part000, bind, readDoc. now rewrite Habs.
Qed.

Lemma forEachField_absent (fs : list CurrencyFieldConfig) (s : St) :
  (forall f, In f fs ->
     is_nullish (getNestedValue (doc s) (PathString (sourcePath f))) = true) ->
  (exists warnings,
      forEachField (iteration rt opts) fs s
      = (Ok tt, after s (world s) warnings)
      /\ List.length warnings <= List.length fs
      /\ Forall is_warning warnings)
  /\ forEachField (iteration_part000 rt opts) fs s = (Ok tt, s).
Proof.
  revert s. induction fs as [| f rest IH]; intros s Habs; simpl.
  - split; [| reflexivity].
    exists []. rewrite after_nothing. repeat split; simpl; auto.
  - destruct (iteration_absent f s (Habs f (or_introl eq_refl)))
      as ((ws1 & E1 & L1 & F1) & E1').
    split.
    + destruct (IH (after s (world s) ws1)) as ((ws2 & E2 & L2 & F2) & _).
      { intros g Hg. simpl. apply Habs. now right. }
      exists (ws1 ++ ws2)%list. unfold bind. rewrite E1, E2.
      repeat split.
      * unfold after. simpl. now rewrite app_assoc.
      * rewrite length_app. lia.
      * apply Forall_app. now split.
    + unfold bind. rewrite E1'. apply IH.
      intros g Hg. apply Habs. now right.
Qed.

(** A record in which no mapping finds its source is left as it is: the
    invocation completes, the record and [convertedFields] are unchanged,
    no collaborator has been called, and the trace holds nothing but the
    warnings of the guards on [targetPath], at most one per mapping.  The
    second copy of index.ts, which has no such guards, does nothing at
    all. *)
Theorem absent_sources_change_nothing (d : JsValue) (w : W) :
  (forall f, In f (fields opts) ->
     is_nullish (getNestedValue d (PathString (sourcePath f))) = true) ->
  (exists warnings,
      applyCurrencyConversion rt opts d w
      = (Ok tt, after (initial d w) w warnings)
      /\ List.length warnings <= List.length (fields opts)
      /\ Forall is_warning warnings)
  /\ applyCurrencyConversion_part000 rt opts d w = (Ok tt, initial d w).
Proof.
  intros Habs. apply (forEachField_absent (fields opts) (initial d w) Habs).
Qed.

(** *** What an invocation leaves alone *)

Local Abbreviation roots := (target_roots (fields opts)).

Lemma same_outside_refl (d : JsValue) : same_outside roots d d.
Proof. destruct d; simpl; eauto. Qed.

Lemma same_outside_trans (d1 d2 d3 : JsValue) :
  same_outside roots d1 d2 -> same_outside roots d2 d3 ->
  same_outside roots d1 d3.
Proof.
  destruct d1; simpl; auto.
  intros (p2 & -> & H2) (p3 & -> & H3).
  exists p3. split; auto. intros key Hk. rewrite H3, H2; auto.
Qed.

Lemma same_outside_assign (d : JsValue) (path : string) (v : JsValue) :
  In (first_segment (PathString path)) roots ->
  same_outside roots d (fst (setNestedValue d (PathString path) v)).
Proof.
  intros Hin. destruct d; simpl; auto.
  destruct (AccessorSpec.setNestedValue_object_frame c props
              (PathString path) v) as (props' & E & H).
  exists props'. split; auto.
  intros key Hk. apply H. intros <-. contradiction.
Qed.

(** A property of the state that the steps of an invocation keep, given
    that it does not depend on the trace and the world, and that writing
    and recording a permitted path keep it. *)
Section Invariant.

Variable Inv : St -> Prop.
Variable permitted : string -> Prop.

Hypothesis Inv_frame :
  forall s s' : St,
    doc s' = doc s -> convertedFields s' = convertedFields s ->
    Inv s -> Inv s'.
Hypothesis Inv_assign :
  forall (path : string) (v : JsValue),
    permitted path -> preserves Inv (assign (W := W) path v).
Hypothesis Inv_push :
  forall path : string, permitted path -> preserves Inv (push (W := W) path).
Hypothesis Inv_converted :
  forall s : St, Inv s -> Forall permitted (convertedFields s).
Hypothesis targets_permitted :
  forall f, In f (fields opts) -> permitted (targetPath f).

Lemma preserves_ret (A : Type) (a : A) : preserves Inv (ret (W := W) a).
Proof. intros s H. exact H. Qed.

Lemma preserves_throw (A : Type) (e : JsError) :
  preserves Inv (throw (W := W) (A := A) e).
Proof. intros s H. exact H. Qed.

Lemma preserves_bind (A B : Type) (m : M W A) (k : A -> M W B) :
  preserves Inv m -> (forall a, preserves Inv (k a)) ->
  preserves Inv (bind m k).
Proof.
  intros Hm Hk s H. unfold bind. pose proof (Hm s H) as H1.
  destruct (m s) as [[a | e] s1]; simpl in *; auto. now apply Hk.
Qed.

Lemma preserves_tryCatch (A : Type) (m : M W A) (h : JsError -> M W A) :
  preserves Inv m -> (forall e, preserves Inv (h e)) ->
  preserves Inv (tryCatch m h).
Proof.
  intros Hm Hh s H. unfold tryCatch. pose proof (Hm s H) as H1.
  destruct (m s) as [[a | e] s1]; simpl in *; auto. now apply Hh.
Qed.

Lemma preserves_if (A : Type) (b : bool) (m1 m2 : M W A) :
  preserves Inv m1 -> preserves Inv m2 ->
  preserves Inv (if b then m1 else m2).
Proof. now destruct b. Qed.

Lemma preserves_emit (ev : Event) : preserves Inv (emit (W := W) ev).
Proof.
  intros s H. apply (Inv_frame s); [reflexivity | reflexivity | exact H].
Qed.

Lemma preserves_call (A : Type) (f : W -> Outcome A * W) :
  preserves Inv (call f).
Proof.
  intros s H. unfold call. destruct (f (world s)).
  apply (Inv_frame s); [reflexivity | reflexivity | exact H].
Qed.

Lemma preserves_readDoc : preserves Inv (readDoc (W := W)).
Proof. intros s H. exact H. Qed.

Lemma preserves_warn (msg : string) :
  preserves Inv (bind (emit (W := W) (Warn msg)) (fun _ => ret Continue)).
Proof.
  apply preserves_bind; [apply preserves_emit |].
  intros _. apply preserves_ret.
Qed.

Lemma preserves_erase (path : string) :
  permitted path -> preserves Inv (erase (W := W) path).
Proof.
  intros Hin. unfold erase.
  apply preserves_bind; [apply preserves_emit |].
  intros _. now apply Inv_assign.
Qed.

Lemma preserves_rollback (fs : list CurrencyFieldConfig) :
  incl fs (fields opts) -> preserves Inv (rollback (W := W) fs).
Proof.
  induction fs as [| f rest IH]; intros Hincl; simpl.
  - apply preserves_ret.
  - apply preserves_bind.
    + apply preserves_if; [apply preserves_ret |].
      apply preserves_erase. apply targets_permitted.
      apply Hincl. now left.
    + intros _. apply IH. intros x Hx. apply Hincl. now right.
Qed.

Lemma preserves_rollbackConverted (paths : list string) :
  Forall permitted paths ->
  preserves Inv (rollbackConverted (W := W) paths).
Proof.
  induction 1 as [| p rest Hp Hrest IH]; simpl.
  - apply preserves_ret.
  - apply preserves_bind; [now apply preserves_erase |].
    intros _. exact IH.
Qed.

Lemma preserves_report (field : CurrencyFieldConfig) (fromCurrency : string)
  (conversionDate : float) (e : JsError) :
  preserves Inv (report opts field fromCurrency conversionDate e).
Proof.
  unfold report. destruct (onError opts).
  - apply preserves_bind; [apply preserves_emit |].
    intros _. apply preserves_call.
  - apply preserves_emit.
Qed.

Lemma preserves_convert (field : CurrencyFieldConfig) (amount : JsValue)
  (fromCurrency : string) (conversionDate : float) (key : string) :
  In field (fields opts) ->
  preserves Inv
    (convert rt opts field amount fromCurrency conversionDate key).
Proof.
  intros Hin. pose proof (targets_permitted _ Hin) as Hroot.
  unfold convert. apply preserves_bind.
  - unfold lookupRate. apply preserves_bind.
    + destruct (cache opts); [| apply preserves_ret].
      apply preserves_bind; [apply preserves_emit |].
      intros _. apply preserves_call.
    + intros [x |]; [apply preserves_ret |].
      apply preserves_bind; [apply preserves_emit |]. intros _.
      apply preserves_bind; [apply preserves_call |]. intros rate.
      destruct (cache opts); [destruct rate |]; try apply preserves_ret.
      apply preserves_if; [| apply preserves_ret].
      apply preserves_bind; [apply preserves_emit |]. intros _.
      apply preserves_bind; [apply preserves_call |]. intros _.
      apply preserves_ret.
  - intros rate0. apply preserves_bind.
    + unfold checkRate.
      destruct rate0 as [x |]; [destruct (is_zero x || Number_isNaN x) |];
        destruct (fallbackRate opts);
        auto using preserves_ret, preserves_throw.
    + intros rate. cbv zeta.
      apply preserves_bind; [now apply Inv_assign |]. intros _.
      apply preserves_bind; [apply preserves_emit |]. intros _.
      now apply Inv_push.
Qed.

Lemma preserves_guarded (field : CurrencyFieldConfig)
  (handler : string -> float -> JsError -> M W Flow) (amount : JsValue)
  (fromCurrency : string) :
  In field (fields opts) ->
  (forall code t e, preserves Inv (handler code t e)) ->
  preserves Inv
    (bind (resolveDate rt opts field)
       (fun conversionDate =>
          bind (makeCacheKey rt fromCurrency (toCurrency field)
                  conversionDate)
            (fun cacheKey =>
               tryCatch
                 (bind (convert rt opts field amount fromCurrency
                          conversionDate cacheKey)
                    (fun _ => ret Continue))
                 (handler fromCurrency conversionDate)))).
Proof.
  intros Hin Hh. apply preserves_bind.
  - unfold resolveDate. apply preserves_bind; [apply preserves_readDoc |].
    intros d. apply preserves_bind.
    + apply preserves_if; [apply preserves_ret | apply preserves_call].
    + intros t. destruct (dateTransform opts); apply preserves_ret.
  - intros t. apply preserves_bind.
    + unfold makeCacheKey.
      apply preserves_if; [apply preserves_throw | apply preserves_ret].
    + intros key. apply preserves_tryCatch; auto.
      apply preserves_bind; [now apply preserves_convert |].
      intros _. apply preserves_ret.
Qed.

Lemma preserves_checkCodes (field : CurrencyFieldConfig)
  (fromCurrency : string) (k : M W Flow) :
  preserves Inv k -> preserves Inv (checkCodes opts field fromCurrency k).
Proof.
  intros Hk. unfold checkCodes.
  repeat apply preserves_if; auto using preserves_warn.
Qed.

Lemma preserves_iteration (field : CurrencyFieldConfig) :
  In field (fields opts) -> preserves Inv (iteration rt opts field).
Proof.
  intros Hin. unfold iteration.
  repeat apply preserves_if; auto using preserves_warn.
  apply preserves_bind; [apply preserves_readDoc |]. intros d.
  apply preserves_if; [apply preserves_ret |].
  destruct (getNestedValue d (PathString (currencyPath field)));
    auto using preserves_warn.
  apply preserves_if; auto using preserves_warn.
  apply preserves_checkCodes.
  apply (preserves_guarded field
           (fun code t e => onFailure opts field code t e)); auto.
  intros code t e. unfold onFailure.
  apply preserves_bind; [apply preserves_report |]. intros _.
  apply preserves_if; [| apply preserves_ret].
  apply preserves_bind; [| intros _; apply preserves_ret].
  apply preserves_rollback. apply incl_refl.
Qed.

Lemma preserves_iteration_part000 (field : CurrencyFieldConfig) :
  In field (fields opts) -> preserves Inv (iteration_part000 rt opts field).
Proof.
  intros Hin. unfold iteration_part000.
  apply preserves_bind; [apply preserves_readDoc |]. intros d.
  apply preserves_if; [apply preserves_ret |].
  destruct (getNestedValue d (PathString (currencyPath field)));
    try apply preserves_ret.
  apply preserves_if; [apply preserves_ret |].
  apply preserves_checkCodes.
  apply (preserves_guarded field
           (fun code t e => onFailure_part000 opts field code t e)); auto.
  intros code t e. unfold onFailure_part000.
  apply preserves_bind; [apply preserves_report |]. intros _.
  apply preserves_if; [| apply preserves_ret].
  apply preserves_bind; [| intros _; apply preserves_ret].
  intros st H. apply preserves_rollbackConverted; auto.
Qed.

Lemma preserves_forEachField (body : CurrencyFieldConfig -> M W Flow)
  (fs : list CurrencyFieldConfig) :
  (forall f, In f fs -> preserves Inv (body f)) ->
  preserves Inv (forEachField body fs).
Proof.
  induction fs as [| f rest IH]; intros Hb; simpl.
  - apply preserves_ret.
  - apply preserves_bind; [apply Hb; now left |].
    intros []; [| apply preserves_ret].
    apply IH. intros g Hg. apply Hb. now right.
Qed.

Lemma preserves_applyCurrencyConversion (d : JsValue) (w : W) :
  Inv (initial d w) ->
  Inv (snd (applyCurrencyConversion rt opts d w))
  /\ Inv (snd (applyCurrencyConversion_part000 rt opts d w)).
Proof.
  intros H0. split.
  - apply (preserves_forEachField (iteration rt opts) (fields opts)
             (fun f Hf => preserves_iteration f Hf) _ H0).
  - apply (preserves_forEachField (iteration_part000 rt opts) (fields opts)
             (fun f Hf => preserves_iteration_part000 f Hf) _ H0).
Qed.

End Invariant.

(** The first instance: the record only changes under the target roots. *)
Lemma within_targets_kept (d0 d : JsValue) (w : W) :
  within_targets opts d0 (initial d w) ->
  within_targets opts d0 (snd (applyCurrencyConversion rt opts d w))
  /\ within_targets opts d0
       (snd (applyCurrencyConversion_part000 rt opts d w)).
Proof.
  apply (preserves_applyCurrencyConversion (within_targets opts d0)
           (fun path => In (first_segment (PathString path)) roots)).
  - unfold within_targets. intros s s' -> ->. auto.
  - intros path v Hin s (Hd & Hc). unfold assign.
    pose proof (same_outside_assign (doc s) path v Hin) as Hs.
    destruct (setNestedValue (doc s) (PathString path) v) as [d1 [e |]];
      simpl in *; split; auto; eapply same_outside_trans; eauto.
  - intros path Hin s (Hd & Hc). split; simpl; auto.
    apply Forall_app. split; auto.
  - intros s (_ & Hc). exact Hc.
  - intros f Hf. unfold target_roots.
    now apply (in_map (fun f => first_segment (PathString (targetPath f)))).
Qed.

Lemma same_outside_read (c : ObjectClass) (props : list (string * JsValue))
  (d' : JsValue) (other : string) :
  same_outside roots (VObj c props) d' ->
  ~ In (first_segment (PathString other)) roots ->
  getNestedValue d' (PathString other)
  = getNestedValue (VObj c props) (PathString other).
Proof.
  intros (props' & -> & H) Hout.
  unfold first_segment in Hout. unfold getNestedValue.
  simpl path_keys in *. unfold getPathArray in *.
  destruct (AccessorSpec.split_dots_cons other) as (seg & more & Hs).
  rewrite Hs in *. simpl in *. f_equal. unfold get_step. simpl.
  destruct (Number_of_key seg); simpl; now apply H.
Qed.


End Properties.

(** A record without the price: nothing happens. *)
Lemma absent_sources_change_nothing_witness :
  applyCurrencyConversion_part000 host
    (options [toResult] (constantRate (Some 3%float)))
    (obj [("name", VStr "x")]) world0
  = (Ok tt, initial (obj [("name", VStr "x")]) world0).
Proof.
  refine (proj2 (absent_sources_change_nothing World host
                   (options [toResult] (constantRate (Some 3%float)))
                   (obj [("name", VStr "x")]) world0 _)).
  intros f [<- | []]. reflexivity.
Defined.


(** The date of [recordWithBadDate] does not parse: the invocation
    rejects with a RangeError and the record is not touched. *)
Lemma invalid_date_rejects_witness :
  applyCurrencyConversion host
    (options [dated] (constantRate (Some 2%float)))
    recordWithBadDate world0
  = (Throws RangeError, initial recordWithBadDate world0).
Proof.
  apply (proj1 (proj2 (invalid_date_rejects World host
                         (options [dated] (constantRate (Some 2%float)))
                         dated (initial recordWithBadDate world0)
                         (initial recordWithBadDate world0)
                         (VNum 10) "USD" nan []
                         ltac:(unfold passes_guards; repeat split;
                               try reflexivity; discriminate)
                         eq_refl eq_refl))).
Defined.

(** The cache of [worldWithRate] holds 3: the amount 10 becomes 30 and
    the resolver is not called. *)
Lemma cache_hit_skips_the_resolver_witness :
  getNestedValue
    (doc (snd (iteration host
                 (withCache (options [toResult] failingRate))
                 toResult (initial (priced (VNum 10) []) worldWithRate))))
    (PathString "result.amount")
  = VNum 30.
Proof.
  erewrite (cache_hit_skips_the_resolver World host
              (withCache (options [toResult] failingRate))
              toResult
              (initial (priced (VNum 10) []) worldWithRate)
              (initial (priced (VNum 10) []) worldWithRate)
              (VNum 10) "USD" 1759276800000%float 3%float
              simpleCache worldWithRate);
    [| PluginSpec.reaches_by_evaluation | reflexivity ..].
  reflexivity.
Defined.

(** The resolver returns NaN and there is no fallback: the failure is
    logged and the loop continues. *)
Lemma unusable_rate_without_fallback_witness :
  exists w,
    iteration host (options [toResult] (constantRate (Some nan)))
      toResult (initial (priced (VNum 10) []) world0)
    = (Ok Continue,
       after
         (after (initial (priced (VNum 10) []) world0) (counted world0)
            [GetRate "USD" "EUR" 1759276800000])
         w
         [ConsoleError (prefix ++ "Error converting price:")
            (ErrorMsg "Invalid rate")]).
Proof.
  apply (proj2 (unusable_rate_without_fallback World host
                  (options [toResult] (constantRate (Some nan)))
                  toResult
                  (initial (priced (VNum 10) []) world0)
                  (initial (priced (VNum 10) []) world0)
                  (after (initial (priced (VNum 10) []) world0)
                     (counted world0)
                     [GetRate "USD" "EUR" 1759276800000])
                  (VNum 10) "USD" 1759276800000%float (Some nan)
                  ltac:(PluginSpec.reaches_by_evaluation)
                  eq_refl eq_refl eq_refl)).
  reflexivity.
Defined.

(** The currency of the record is not in the allow-list: one warning,
    nothing else. *)
Lemma skipped_field_changes_nothing_witness :
  exists warnings,
    iteration host
      {| fields := [toResult]; getRate := failingRate; round := None;
         allowedCurrencyCodes := Some ["EUR"]; onError := None;
         fallbackRate := None; rollbackOnError := true; cache := None;
         dateTransform := None |}
      toResult (initial (priced (VNum 10) []) world0)
    = (Ok Continue,
       after (initial (priced (VNum 10) []) world0) world0 warnings)
    /\ List.length warnings <= 1
    /\ Forall is_warning warnings.
Proof.
  apply (skipped_field_changes_nothing World host
           {| fields := [toResult]; getRate := failingRate; round := None;
              allowedCurrencyCodes := Some ["EUR"]; onError := None;
              fallbackRate := None; rollbackOnError := true; cache := None;
              dateTransform := None |}
           toResult (initial (priced (VNum 10) []) world0)).
  intros amount fromCurrency (_ & _ & _ & _ & Hc & _ & Hv & _).
  vm_compute in Hc. injection Hc as <-. vm_compute in Hv. discriminate.
Defined.

(** *** [SimpleCache] as the cache of the pipeline *)

Lemma world_eta (w : World) :
  {| clock := clock w; rates := rates w; rateCalls := rateCalls w |} = w.
Proof. now destruct w. Qed.

(** A rate fetched once is served from the cache afterwards.  With a
    [SimpleCache] as the cache: after a miss, a resolver answer [x] that is
    not NaN is stored under the key, and from then on, in any state whose
    cache is the one just written and whose clock has not passed the time
    to live, the rate resolution returns [x] with the cache read as its
    only step: the resolver is not called again. *)
Theorem cached_rate_is_served_until_it_expires
  (o : Options World) (field : CurrencyFieldConfig)
  (fromCurrency : string) (conversionDate x : float) (key : string)
  (s : State World) (w2 : World) :
  cache o = Some simpleCache ->
  fst (cache_get simpleCache key (world s)) = Ok None ->
  getRate o fromCurrency (toCurrency field) conversionDate
    (snd (cache_get simpleCache key (world s))) = (Ok (Some x), w2) ->
  Number_isNaN x = false ->
  exists s2,
    lookupRate o field fromCurrency conversionDate key s = (Ok (Some x), s2)
    /\ rates (world s2) = Cache.set (clock w2) key x (rates w2)
    /\ forall s3 : State World,
        rates (world s3) = rates (world s2) ->
        PrimFloat.ltb (clock w2 + Cache.ttl (rates w2))%float
          (clock (world s3)) = false ->
        lookupRate o field fromCurrency conversionDate key s3
        = (Ok (Some x), after s3 (world s3) [CacheGet key]).
Proof.
  intros Hc Hmiss Hr Hnan.
  assert (Hm : cache_missed o key (world s)
                 (snd (cache_get simpleCache key (world s)))).
  { unfold cache_missed. rewrite Hc. rewrite <- Hmiss.
    now destruct (cache_get simpleCache key (world s)). }
  pose proof (PluginSpec.lookupRate_on_miss World o field fromCurrency
                conversionDate key s _ _ _ Hm Hr) as Hl.
  rewrite Hc, Hnan in Hl. simpl in Hl.
  eexists. split; [exact Hl |]. split; [reflexivity |].
  intros s3 Hrates Hfresh. simpl in Hrates.
  unfold lookupRate, bind, emit, call, ret. rewrite Hc. simpl.
  rewrite Hrates, (CacheSpec.get_set_fresh float _ _ _ _ _ Hfresh).
  simpl. rewrite <- Hrates, world_eta. reflexivity.
Qed.

(** The cache test of the suite: the second lookup, one hour later at
    most, does not reach the (now failing) resolver. *)
Lemma cached_rate_is_served_until_it_expires_witness :
  lookupRate (withCache (options [toResult] (constantRate (Some 3%float))))
    toResult "USD" 1759276800000 keyUsdEur
    (initial (priced (VNum 20) []) worldWithRate)
  = (Ok (Some 3%float),
     after (initial (priced (VNum 20) []) worldWithRate) worldWithRate
       [CacheGet keyUsdEur]).
Proof.
  destruct (cached_rate_is_served_until_it_expires
              (withCache (options [toResult] (constantRate (Some 3%float))))
              toResult "USD" 1759276800000 3 keyUsdEur
              (initial (priced (VNum 10) []) world0) (counted world0)
              eq_refl eq_refl eq_refl eq_refl) as (s2 & _ & Hrates & Hserved).
  apply Hserved.
  - rewrite Hrates. reflexivity.
  - reflexivity.
Defined.

End PipelineSpec.

(** * Properties of the query middleware *)

Module MiddlewareSpec.

Local Open Scope list_scope.
Local Open Scope string_scope.

Section Properties.

Variable W : Type.
Variable rt : Runtime W.
Variable opts : Options W.

Local Abbreviation roots := (target_roots (fields opts)).

(** *** The keys of a property table under assignment *)

Lemma store_keys_in (key : string) (v : JsValue)
  (props : list (string * JsValue)) :
  In key (map fst props) -> map fst (store key v props) = map fst props.
Proof.
  induction props as [| [k w] rest IH]; simpl; intros Hin.
  - contradiction.
  - destruct (k =? key) eqn:E; simpl; [reflexivity |].
    f_equal. apply IH. destruct Hin as [-> | Hin]; auto.
    rewrite String.eqb_refl in E. discriminate.
Qed.

Lemma store_keys_new (key : string) (v : JsValue)
  (props : list (string * JsValue)) :
  ~ In key (map fst props) ->
  map fst (store key v props) = (map fst props ++ [key])%list.
Proof.
  induction props as [| [k w] rest IH]; simpl; intros Hn.
  - reflexivity.
  - destruct (k =? key) eqn:E; simpl.
    + apply String.eqb_eq in E. subst k. exfalso. apply Hn. now left.
    + f_equal. apply IH. intros H. apply Hn. now right.
Qed.

Lemma NoDup_snoc (key : string) (keys : list string) :
  NoDup keys -> ~ In key keys -> NoDup (keys ++ [key])%list.
Proof.
  induction 1 as [| k rest Hk Hrest IH]; simpl; intros Hn.
  - constructor; [intros [] | constructor].
  - constructor.
    + intros H. apply in_app_or in H. destruct H as [H | [-> | []]]; auto.
    + apply IH. intros H. apply Hn. now right.
Qed.

Lemma store_keeps_keys (key : string) (v : JsValue)
  (props : list (string * JsValue)) :
  (NoDup (map fst props) -> NoDup (map fst (store key v props)))
  /\ incl (map fst props) (map fst (store key v props)).
Proof.
  destruct (in_dec string_dec key (map fst props)) as [Hin | Hn].
  - rewrite (store_keys_in _ _ _ Hin). split; auto using incl_refl.
  - rewrite (store_keys_new _ _ _ Hn). split.
    + intros H. now apply NoDup_snoc.
    + apply incl_appl, incl_refl.
Qed.

Lemma lookup_absent (key : string) (props : list (string * JsValue)) :
  ~ In key (map fst props) -> lookup key props = VUndefined.
Proof.
  induction props as [| [k w] rest IH]; simpl; intros Hn; auto.
  destruct (k =? key) eqn:E.
  - apply String.eqb_eq in E. subst k. exfalso. apply Hn. now left.
  - apply IH. intros H. apply Hn. now right.
Qed.

(** [setNestedValue] on an object assigns at most one of its properties. *)
Lemma set_walk_object_shape (parts : list string) (last : string)
  (value : JsValue) (c : ObjectClass) (props : list (string * JsValue)) :
  exists key v,
    fst (set_walk (VObj c props) parts last value)
    = VObj c (store key v props).
Proof.
  destruct parts as [| key rest]; simpl in *.
  - unfold set_last. simpl.
    destruct (Number_of_key last); simpl; eauto.
  - assert (Hin : forall cur,
              exists k v,
                fst (let '(child, e) := set_walk cur rest last value in
                     (fst (set_prop (VObj c props) key child), e))
                = VObj c (store k v props)).
    { intros cur. destruct (set_walk cur rest last value) as [child e].
      simpl. eauto. }
    destruct (negb (is_typeof_object (lookup key props))
              || is_nullish (lookup key props));
      destruct (Number_of_key key); simpl; apply Hin.
Qed.

Lemma setNestedValue_keeps_keys (c : ObjectClass)
  (props : list (string * JsValue)) (path : Path) (value : JsValue) :
  exists props',
    fst (setNestedValue (VObj c props) path value) = VObj c props'
    /\ (NoDup (map fst props) -> NoDup (map fst props'))
    /\ incl (map fst props) (map fst props').
Proof.
  unfold setNestedValue.
  destruct (pop (path_keys path)) as [[parts last] |];
    [| exists props; auto using incl_refl].
  destruct (last =? ""); [exists props; auto using incl_refl |].
  destruct (set_walk_object_shape parts last value c props)
    as (key & v & E).
  exists (store key v props). split; auto. apply store_keeps_keys.
Qed.

(** The conversion keeps the record a plain object with distinct keys and
    never removes a key. *)
Lemma carries_keys_kept (props : list (string * JsValue)) (w : W) :
  NoDup (map fst props) ->
  carries_keys (map fst props)
    (snd (applyCurrencyConversion rt opts (VObj PlainObject props) w)).
Proof.
  intros Hnd.
  apply (PipelineSpec.preserves_applyCurrencyConversion W rt opts
           (carries_keys (map fst props)) (fun _ => True)).
  - unfold carries_keys. intros s s' -> _. auto.
  - intros path v _ s (p & Hd & Hn & Hi). unfold assign. rewrite Hd.
    destruct (setNestedValue_keeps_keys PlainObject p (PathString path) v)
      as (p' & E & Hn' & Hi').
    destruct (setNestedValue (VObj PlainObject p) (PathString path) v)
      as [d1 [e |]]; simpl in *; subst d1;
      exists p'; repeat split; auto; eapply incl_tran; eauto.
  - intros path _ s H. exact H.
  - intros s _. apply Forall_forall. auto.
  - auto.
  - exists props. repeat split; auto using incl_refl.
Qed.

(** *** [Object.assign] on an object *)

Lemma Object_assign_lookup (c : ObjectClass)
  (source target : list (string * JsValue)) :
  NoDup (map fst source) ->
  exists props',
    Object_assign (VObj c target) source = VObj c props'
    /\ forall key,
        (In key (map fst source) -> lookup key props' = lookup key source)
        /\ (~ In key (map fst source) ->
            lookup key props' = lookup key target).
Proof.
  unfold Object_assign. revert target.
  induction source as [| [k v] rest IH]; simpl; intros target Hnd.
  - exists target. split; auto. intros key. split; [intros [] | auto].
  - inversion Hnd as [| ? ? Hk Hrest]; subst.
    destruct (IH (store k v target) Hrest) as (props' & E & H).
    exists props'. split; auto. intros key.
    destruct (H key) as (Hin & Hout).
    destruct (k =? key) eqn:Ek.
    + apply String.eqb_eq in Ek. subst key. split.
      * intros _. rewrite (Hout Hk). apply HelpersSpec.lookup_store_same.
      * intros Hn. exfalso. apply Hn. now left.
    + apply String.eqb_neq in Ek. split.
      * intros [He | Hi]; [contradiction | auto].
      * intros Hn. rewrite Hout by tauto.
        now apply AccessorSpec.lookup_store_other.
Qed.

(** Two objects with the same properties read alike at every path. *)
Lemma read_by_lookup (c1 c2 : ObjectClass)
  (p1 p2 : list (string * JsValue)) (path : string) :
  lookup (first_segment (PathString path)) p1
  = lookup (first_segment (PathString path)) p2 ->
  getNestedValue (VObj c1 p1) (PathString path)
  = getNestedValue (VObj c2 p2) (PathString path).
Proof.
  unfold first_segment, getNestedValue. simpl path_keys.
  unfold getPathArray.
  destruct (AccessorSpec.split_dots_cons path) as (seg & more & ->).
  simpl. intros H. f_equal. unfold get_step. simpl.
  destruct (Number_of_key seg); simpl; exact H.
Qed.

(** An update with a [$set] operator that holds an object: the conversion
    runs on a copy of the [$set] document, and when it completes the copy
    replaces it.  The other operators of the update are untouched, and so
    is every field of the [$set] document outside the target properties of
    the mappings.  When the conversion rejects, so does the middleware and
    the query is not continued. *)
Theorem update_with_set_converts_the_set_document
  (props sprops : list (string * JsValue)) (c : ObjectClass) (w : W) :
  lookup "$set" props = VObj c sprops ->
  (forall s,
      applyCurrencyConversion rt opts (VObj PlainObject sprops) w
      = (Ok tt, s) ->
      exists props',
        handleUpdateMiddleware rt opts (UpdateQuery props) w
        = Passed (VObj PlainObject props') (world s) (log s)
        /\ lookup "$set" props' = doc s
        /\ (forall operator,
              operator <> "$set" ->
              lookup operator props' = lookup operator props)
        /\ (forall other,
              ~ In (first_segment (PathString other)) roots ->
              getNestedValue (VObj PlainObject props')
                (PathString ("$set." ++ other))
              = getNestedValue (VObj PlainObject props)
                  (PathString ("$set." ++ other))))
  /\ (forall e s,
        applyCurrencyConversion rt opts (VObj PlainObject sprops) w
        = (Throws e, s) ->
        handleUpdateMiddleware rt opts (UpdateQuery props) w
        = Rejected e (world s) (log s)).
Proof.
  intros Hset.
  assert (Hrun : handleUpdateMiddleware rt opts (UpdateQuery props) w
                 = finish (fun d => put (VObj PlainObject props) "$set" d)
                     (applyCurrencyConversion rt opts
                        (VObj PlainObject sprops) w)).
  { unfold handleUpdateMiddleware, updateMiddleware. simpl.
    rewrite Hset. reflexivity. }
  split.
  - intros s Hs. rewrite Hrun, Hs. unfold finish, put.
    exists (store "$set" (doc s) props).
    assert (Hd : lookup "$set" (store "$set" (doc s) props) = doc s)
      by apply HelpersSpec.lookup_store_same.
    repeat split; auto.
    + intros operator Hne. apply AccessorSpec.lookup_store_other. congruence.
    + intros other Hout.
      change ("$set." ++ other) with ("$set" ++ "." ++ other).
      rewrite !AccessorSpec.getNestedValue_append.
      assert (Hread : forall p,
                getNestedValue (VObj PlainObject p) (PathString "$set")
                = lookup "$set" p) by reflexivity.
      rewrite !Hread, Hd, Hset.
      assert (H0 : within_targets opts (VObj PlainObject sprops)
                     (initial (VObj PlainObject sprops) w)).
      { split; [apply PipelineSpec.same_outside_refl | constructor]. }
      destruct (PipelineSpec.within_targets_kept W rt opts _ _ _ H0)
        as ((H1 & _) & _).
      rewrite Hs in H1. simpl in H1.
      rewrite (PipelineSpec.same_outside_read W opts _ _ _ _ H1 Hout).
      apply read_by_lookup. reflexivity.
  - intros e s Hs. rewrite Hrun, Hs. reflexivity.
Qed.

(** An update without a [$set] object is converted as a whole: the
    conversion runs on a copy of the update, and when it completes every
    property of the copy is assigned back, so that the update reads as the
    converted copy at every property, and reads as it did before at every
    path outside the target properties of the mappings.  When the
    conversion rejects, so does the middleware and the query is not
    continued. *)
Theorem update_without_set_is_converted_as_a_whole
  (props : list (string * JsValue)) (w : W) :
  NoDup (map fst props) ->
  is_object (lookup "$set" props) = false ->
  (forall s,
      applyCurrencyConversion rt opts (VObj PlainObject props) w
      = (Ok tt, s) ->
      exists props',
        handleUpdateMiddleware rt opts (UpdateQuery props) w
        = Passed (VObj PlainObject props') (world s) (log s)
        /\ (forall key, lookup key props' = get_prop (doc s) key)
        /\ (forall other,
              ~ In (first_segment (PathString other)) roots ->
              getNestedValue (VObj PlainObject props') (PathString other)
              = getNestedValue (VObj PlainObject props)
                  (PathString other)))
  /\ (forall e s,
        applyCurrencyConversion rt opts (VObj PlainObject props) w
        = (Throws e, s) ->
        handleUpdateMiddleware rt opts (UpdateQuery props) w
        = Rejected e (world s) (log s)).
Proof.
  intros Hnd Hset.
  assert (Hrun : handleUpdateMiddleware rt opts (UpdateQuery props) w
                 = finish
                     (fun d => Object_assign (VObj PlainObject props)
                                 (spread d))
                     (applyCurrencyConversion rt opts
                        (VObj PlainObject props) w)).
  { unfold handleUpdateMiddleware, updateMiddleware. simpl.
    rewrite Hset. reflexivity. }
  split.
  - intros s Hs. rewrite Hrun, Hs. simpl.
    pose proof (carries_keys_kept props w Hnd) as (p & Hd & Hn & Hi).
    rewrite Hs in Hd. simpl in Hd. rewrite Hd. simpl.
    destruct (Object_assign_lookup PlainObject p props Hn)
      as (props' & E & H).
    exists props'. split; [now rewrite E |].
    assert (Hall : forall key, lookup key props' = lookup key p).
    { intros key. destruct (H key) as (Hin & Hout).
      destruct (in_dec string_dec key (map fst p)) as [Hk | Hk]; auto.
      rewrite (Hout Hk), (lookup_absent _ _ Hk).
      apply lookup_absent. intros Hp. apply Hk. now apply Hi. }
    split; auto.
    intros other Hout.
    assert (H0 : within_targets opts (VObj PlainObject props)
                   (initial (VObj PlainObject props) w)).
    { split; [apply PipelineSpec.same_outside_refl | constructor]. }
    destruct (PipelineSpec.within_targets_kept W rt opts _ _ _ H0)
      as ((H1 & _) & _).
    rewrite Hs in H1. simpl in H1. rewrite Hd in H1.
    rewrite <- (PipelineSpec.same_outside_read W opts _ _ _ _ H1 Hout).
    apply read_by_lookup. apply Hall.
  - intros e s Hs. rewrite Hrun, Hs. reflexivity.
Qed.

(** *** Aggregation pipelines *)

Lemma decimal_from_digits (d : Decimal.uint) (acc : nat) :
  decimal_from acc (NilEmpty.string_of_uint d) = Some (Nat.of_uint_acc d acc).
Proof.
  revert acc.
  induction d; intros acc; simpl; auto;
    rewrite IHd; f_equal; f_equal; rewrite Nat.tail_mul_spec; lia.
Qed.

Lemma Number_of_index_key (i : nat) : Number_of_key (index_key i) = Some i.
Proof.
  unfold Number_of_key, index_key.
  pose proof (DecimalNat.Unsigned.of_to i) as H.
  unfold Nat.of_uint in H.
  destruct (Nat.to_uint i) eqn:E;
    try (unfold NilZero.string_of_uint;
         rewrite decimal_from_digits, H; reflexivity).
  simpl in *. now rewrite <- H.
Qed.

Lemma canonical_index_key (i : nat) : canonical_index (index_key i) = Some i.
Proof.
  unfold canonical_index.
  now rewrite Number_of_index_key, String.eqb_refl.
Qed.

Lemma lookup_name_indexed (key : string) (elems : list JsValue) (i : nat) :
  is_name key = true -> lookup key (indexed i elems) = VUndefined.
Proof.
  intros Hname. revert i.
  induction elems as [| v rest IH]; intros i; simpl; auto.
  destruct (index_key i =? key) eqn:E; auto.
  apply String.eqb_eq in E. subst key.
  unfold is_name in Hname. rewrite Number_of_index_key in Hname.
  discriminate.
Qed.

Lemma write_index_same (pre rest : list JsValue) (v : JsValue) :
  write_index (List.length pre) v (pre ++ v :: rest)%list
  = (pre ++ v :: rest)%list.
Proof. induction pre as [| x pre IH]; simpl; auto. now rewrite IH. Qed.

Lemma Object_assign_indexed (pre rest : list JsValue)
  (props : list (string * JsValue)) :
  Object_assign (VArr (pre ++ rest)%list props)
    (indexed (List.length pre) rest)
  = VArr (pre ++ rest)%list props.
Proof.
  unfold Object_assign. revert pre.
  induction rest as [| v rest IH]; intros pre; simpl; auto.
  rewrite canonical_index_key, write_index_same.
  specialize (IH (pre ++ [v])%list).
  rewrite length_app, <- app_assoc in IH. simpl in IH.
  rewrite Nat.add_1_r in IH. exact IH.
Qed.

(** An update given as an aggregation pipeline is never converted.  The
    middleware looks for [$set] on the array of stages, finds none, and
    runs the conversion on a copy whose properties are the stages under
    their indices; a mapping whose source path starts with a name finds
    nothing there.  The update is passed on with the stages it had, no
    collaborator is called, and the trace holds at most the warnings of
    the guards on [targetPath]; with the second copy of index.ts, nothing
    at all. *)
Theorem pipeline_update_is_not_converted (stages : list JsValue) (w : W) :
  (forall f, In f (fields opts) ->
     is_name (first_segment (PathString (sourcePath f))) = true) ->
  (exists warnings,
      handleUpdateMiddleware rt opts (UpdatePipeline stages) w
      = Passed (VArr stages []) w warnings
      /\ Forall is_warning warnings)
  /\ handleUpdateMiddleware_part000 rt opts (UpdatePipeline stages) w
     = Passed (VArr stages []) w [].
Proof.
  intros Hnames.
  assert (Habs : forall f, In f (fields opts) ->
            is_nullish
              (getNestedValue
                 (VObj PlainObject (indexed 0 stages ++ [])%list)
                 (PathString (sourcePath f))) = true).
  { intros f Hf. specialize (Hnames f Hf).
    unfold first_segment in Hnames. unfold getNestedValue.
    simpl path_keys in *. unfold getPathArray in *.
    destruct (AccessorSpec.split_dots_cons (sourcePath f))
      as (seg & more & Hs).
    rewrite Hs in *. simpl in Hnames. simpl fold_left.
    assert (Hstep : get_step (VObj PlainObject (indexed 0 stages ++ [])%list)
                      seg = VUndefined).
    { unfold get_step. simpl. rewrite app_nil_r.
      destruct (Number_of_key seg); simpl;
        now apply lookup_name_indexed. }
    rewrite Hstep, AccessorSpec.fold_get_step_undefined. reflexivity. }
  destruct (PipelineSpec.forEachField_absent W rt opts (fields opts)
              (initial (VObj PlainObject (indexed 0 stages ++ [])%list) w)
              Habs) as ((warnings & E & _ & Hw) & E').
  assert (Hback : Object_assign (VArr stages [])
                    (indexed 0 stages ++ [])%list = VArr stages []).
  { rewrite app_nil_r. apply (Object_assign_indexed [] stages []). }
  split.
  - exists warnings. split; auto.
    unfold handleUpdateMiddleware, updateMiddleware, applyCurrencyConversion.
    cbn [update_value get_prop lookup is_object is_typeof_object andb spread].
    rewrite E. cbn [finish after initial doc world log spread app].
    now rewrite Hback.
  - unfold handleUpdateMiddleware_part000, updateMiddleware,
      applyCurrencyConversion_part000.
    cbn [update_value get_prop lookup is_object is_typeof_object andb spread].
    rewrite E'. cbn [finish initial doc world log spread].
    now rewrite Hback.
Qed.

End Properties.

(** [{ $set: { price: 10, currency: "USD", name: "x" }, $inc: { n: 1 } }]:
    the increment and the name pass through. *)
Lemma update_with_set_converts_the_set_document_witness :
  exists props',
    handleUpdateMiddleware host
      (options [toResult] (constantRate (Some 3%float)))
      (UpdateQuery updateWithSet) world0
    = Passed (obj props') (counted world0)
        [GetRate "USD" "EUR" 1759276800000;
         TargetWritten "result"
           (obj [("amount", VNum 30); ("currency", VStr "EUR");
                 ("date", VObj (DateObject 1759276800000) [])])]
    /\ lookup "$inc" props' = obj [("n", VNum 1)]
    /\ getNestedValue (obj props') (PathString "$set.name") = VStr "x".
Proof.
  destruct (update_with_set_converts_the_set_document World host
              (options [toResult] (constantRate (Some 3%float)))
              updateWithSet setDocument PlainObject world0 eq_refl)
    as [Hok _].
  destruct (Hok (snd (applyCurrencyConversion host
                        (options [toResult] (constantRate (Some 3%float)))
                        (obj setDocument) world0)) eq_refl)
    as (props' & H1 & _ & H3 & H4).
  exists props'. split; [exact H1 | split].
  - rewrite H3; [reflexivity |]. apply String.eqb_neq. reflexivity.
  - transitivity (getNestedValue (obj updateWithSet)
                    (PathString "$set.name")); [| reflexivity].
    apply (H4 "name"). vm_compute. intros [H | []]. discriminate H.
Defined.

(** [{ price: 10, currency: "USD", name: "x" }] as the update: the update
    gains the result, the name passes through. *)
Lemma update_without_set_is_converted_as_a_whole_witness :
  exists props',
    handleUpdateMiddleware host
      (options [toResult] (constantRate (Some 3%float)))
      (UpdateQuery setDocument) world0
    = Passed (obj props') (counted world0)
        [GetRate "USD" "EUR" 1759276800000;
         TargetWritten "result"
           (obj [("amount", VNum 30); ("currency", VStr "EUR");
                 ("date", VObj (DateObject 1759276800000) [])])]
    /\ lookup "result" props'
       = obj [("amount", VNum 30); ("currency", VStr "EUR");
              ("date", VObj (DateObject 1759276800000) [])]
    /\ getNestedValue (obj props') (PathString "name") = VStr "x".
Proof.
  assert (Hnd : NoDup (map fst setDocument)).
  { repeat constructor; simpl; intuition discriminate. }
  destruct (update_without_set_is_converted_as_a_whole World host
              (options [toResult] (constantRate (Some 3%float)))
              setDocument world0 Hnd eq_refl)
    as [Hok _].
  destruct (Hok (snd (applyCurrencyConversion host
                        (options [toResult] (constantRate (Some 3%float)))
                        (obj setDocument) world0)) eq_refl)
    as (props' & H1 & H2 & H3).
  exists props'. split; [exact H1 | split].
  - rewrite H2. reflexivity.
  - transitivity (getNestedValue (obj setDocument) (PathString "name"));
      [| reflexivity].
    apply (H3 "name"). vm_compute. intros [H | []]. discriminate H.
Defined.

(** [[{ $set: { price: 10, currency: "USD" } }]]: the stage is passed on
    without a result. *)
Lemma pipeline_update_is_not_converted_witness :
  handleUpdateMiddleware_part000 host
    (options [toResult] (constantRate (Some 3%float)))
    (UpdatePipeline pipeline) world0
  = Passed (VArr pipeline []) world0 [].
Proof.
  refine (proj2 (pipeline_update_is_not_converted World host
                   (options [toResult] (constantRate (Some 3%float)))
                   pipeline world0 _)).
  intros f [<- | []]. reflexivity.
Defined.

End MiddlewareSpec.
